(** * fig/project.py: dependency ordering of service dicts and the Project facade

    A shallow embedding of [sort_service_dicts] and of class [Project]
    (fig/project.py).  Python exceptions are values of [exn]; code that can
    raise returns a [result]; code that also mutates objects shared with the
    caller runs in the state-and-exception monad [M]. *)

From stdpp Require Import base option list strings gmap functions.

Local Open Scope string_scope.
Local Open Scope list_scope.

(** ** Exceptions and results *)

(** The exceptions the module raises itself ([DependencyError],
    [NoSuchService]), the built-in ones its expressions can raise
    ([KeyError] from [d['name']], [StopIteration] from [next(...)],
    [TypeError] from a call that lacks a required argument), and [Foreign]
    for whatever the service layer below raises. *)
Inductive exn : Type :=
  | DependencyError (msg : string)
  | NoSuchService (name : string)
  | KeyError (key : string)
  | StopIteration
  | TypeError (msg : string)
  | Foreign (descr : string).

Inductive result (A : Type) : Type :=
  | Ok (a : A)
  | Raise (e : exn).
Arguments Ok {A} a.
Arguments Raise {A} e.

(** Sequencing: an exception ends the computation. *)
Definition rbind {A B} (m : result A) (f : A → result B) : result B :=
  match m with
  | Ok a => f a
  | Raise e => Raise e
  end.

Declare Scope result_scope.
Delimit Scope result_scope with R.
Notation "x ← y ; z" := (rbind y (fun x => z))
  (at level 20, y at level 100, z at level 200, only parsing) : result_scope.

Definition is_Ok {A} (r : result A) : Prop := ∃ a, r = Ok a.
Definition is_DependencyError {A} (r : result A) : Prop :=
  ∃ msg, r = Raise (DependencyError msg).

(** ** Service dicts *)

(** A service dict as the configuration loader hands it over: the key
    ['name'] (a string) and the key ['links'] (a list of names) may each be
    present or absent; every other key is kept in [d_rest] and is only ever
    forwarded to the [Service] constructor. *)
Record dict : Type := Dict {
  d_name : option string;
  d_links : option (list string);
  d_rest : gmap string string
}.

#[global] Instance dict_eq_dec : EqDecision dict.
Proof. solve_decision. Defined.

(** [d['name']] *)
Definition getitem_name (d : dict) : result string :=
  match d_name d with
  | Some nm => Ok nm
  | None => Raise (KeyError "name")
  end.

(** [d['links']] *)
Definition getitem_links (d : dict) : result (list string) :=
  match d_links d with
  | Some ls => Ok ls
  | None => Raise (KeyError "links")
  end.

(** [d.get('links', [])] *)
Definition get_links (d : dict) : list string :=
  match d_links d with
  | Some ls => ls
  | None => []
  end.

(** Truth value of [d.get('links')]: [None] and the empty list are false. *)
Definition has_links (d : dict) : bool :=
  match d_links d with
  | Some (_ :: _) => true
  | _ => false
  end.

(** [del d['links']] *)
Definition del_links (d : dict) : dict :=
  {| d_name := d_name d; d_links := None; d_rest := d_rest d |}.

(** [d['name'] = nm] *)
Definition set_name (nm : string) (d : dict) : dict :=
  {| d_name := Some nm; d_links := d_links d; d_rest := d_rest d |}.

(** The two messages of [DependencyError]. *)
Definition self_link_msg (nm : string) : string :=
  "A service can not link to itself: " +:+ nm.
Definition circular_msg (a b : string) : string :=
  "Circular import between " +:+ a +:+ " and " +:+ b.

(** ** sort_service_dicts *)

(** The elements of the list are Python objects.  [T] is the type of the
    references and [view] reads the dict a reference points to; the function
    never writes to them.  With [T := dict] and [view := id] it is the
    function on plain values. *)
Section sort_service_dicts.
Context {T : Type} (view : T → dict).
Local Open Scope result_scope.

(** [x in xs] on a list of dicts: Python compares with [==]. *)
Definition contains (xs : list T) (x : T) : bool :=
  existsb (fun y => bool_decide (view y = view x)) xs.

(** [[s for s in services if s.get('links')]] *)
Definition dependent_of (services : list T) : list T :=
  filter (fun s => has_links (view s)) services.

(** [sum([s['links'] for s in dependent_services], [])] *)
Fixpoint flatten (dependent_services : list T) : result (list string) :=
  match dependent_services with
  | [] => Ok []
  | s :: rest =>
      ls ← getitem_links (view s);
      tl ← flatten rest;
      Ok (ls ++ tl)
  end.

(** [[s for s in services
      if s['name'] not in flatten_links and not s.get('links')]] *)
Fixpoint non_dependent_of (flatten_links : list string) (services : list T)
  : result (list T) :=
  match services with
  | [] => Ok []
  | s :: rest =>
      nm ← getitem_name (view s);
      tl ← non_dependent_of flatten_links rest;
      Ok (if negb (bool_decide (nm ∈ flatten_links)) && negb (has_links (view s))
          then s :: tl else tl)
  end.

(** [next(s for s in services if l == s['name'])] *)
Fixpoint next_named (l : string) (services : list T) : result T :=
  match services with
  | [] => Raise StopIteration
  | s :: rest =>
      nm ← getitem_name (view s);
      if bool_decide (l = nm) then Ok s else next_named l rest
  end.

(** One turn of [for l in n['links']]: the body of the inner loop, from the
    current [sorted_services] to the next. *)
Definition visit_link (services : list T) (n : T) (sorted_services : list T)
    (l : string) : result (list T) :=
  linked_service ← next_named l services;
  nm ← getitem_name (view n);
  if bool_decide (nm ∈ get_links (view linked_service)) then
    lnm ← getitem_name (view linked_service);
    Raise (DependencyError (circular_msg nm lnm))
  else if negb (has_links (view linked_service))
          && negb (contains sorted_services linked_service)
  then Ok (linked_service :: sorted_services)
  else Ok sorted_services.

(** [for l in n['links']: ...] *)
Fixpoint visit_links (services : list T) (n : T) (links : list string)
    (sorted_services : list T) : result (list T) :=
  match links with
  | [] => Ok sorted_services
  | l :: rest =>
      sorted' ← visit_link services n sorted_services l;
      visit_links services n rest sorted'
  end.

(** [while dependent_services: n = dependent_services.pop() ...].  [stack]
    is [dependent_services] read from its end: its head is the element
    [pop()] returns next. *)
Fixpoint drain (services : list T) (stack : list T)
    (sorted_services : list T) : result (list T) :=
  match stack with
  | [] => Ok sorted_services
  | n :: rest =>
      nm ← getitem_name (view n);
      if bool_decide (nm ∈ get_links (view n)) then
        Raise (DependencyError (self_link_msg nm))
      else
        links ← getitem_links (view n);
        sorted' ← visit_links services n links (sorted_services ++ [n]);
        drain services rest sorted'
  end.

Definition sort_service_dicts (services : list T) : result (list T) :=
  let dependent_services := dependent_of services in
  flatten_links ← flatten dependent_services;
  non_dependent_sevices ← non_dependent_of flatten_links services;
  sorted_services ← drain services (reverse dependent_services) [];
  Ok (non_dependent_sevices ++ sorted_services).

End sort_service_dicts.

(** ** State and exceptions *)

(** Code that mutates objects the caller can still see, or that calls the
    service layer, maps a state to an outcome and the state it leaves
    behind; the state is kept when an exception is raised. *)
Definition M (St A : Type) : Type := St → result A * St.

Definition sret {St A} (a : A) : M St A := fun st => (Ok a, st).

Definition sbind {St A B} (m : M St A) (f : A → M St B) : M St B :=
  fun st =>
    match m st with
    | (Ok a, st') => f a st'
    | (Raise e, st') => (Raise e, st')
    end.

(** A computation that reads no state. *)
Definition lift {St A} (r : result A) : M St A := fun st => (r, st).

Declare Scope state_scope.
Delimit Scope state_scope with M.
Notation "x ← y ; z" := (sbind y (fun x => z))
  (at level 20, y at level 100, z at level 200, only parsing) : state_scope.

(** [for x in xs: body(x)] *)
Fixpoint for_each {St A} (body : A → M St unit) (xs : list A) : M St unit :=
  match xs with
  | [] => sret tt
  | x :: rest => sbind (body x) (fun _ => for_each body rest)
  end.

(** ** Services and projects *)

(** The runtime client is an opaque handle. *)
Definition client : Type := nat.

(** Modelled from the spec: the service handle of fig/service.py, which is
    not in src.  A handle is constructed from the client, the project name,
    the linked handles and the remaining fields of the dict, and exposes
    [name] (spec §6).  [s_id] is the identity of the Python object: the
    class defines no equality, so [==] and [in] compare identities. *)
#[warnings="-register-all"]
Inductive Service : Type := mkService {
  s_id : nat;
  s_name : string;
  s_client : client;
  s_project : string;
  s_links : list Service;
  s_options : gmap string string
}.

(** [a is b] *)
Definition same_object (a b : Service) : bool := Nat.eqb (s_id a) (s_id b).

Record Project : Type := mkProject {
  p_name : string;
  p_services : list Service;
  p_client : client
}.

(** [for service in self.services: if service.name == name: return service]
    followed by [raise NoSuchService(name)] *)
Fixpoint find_service (services : list Service) (name : string)
    : result Service :=
  match services with
  | [] => Raise (NoSuchService name)
  | service :: rest =>
      if bool_decide (s_name service = name) then Ok service
      else find_service rest name
  end.

Definition get_service (self : Project) (name : string) : result Service :=
  find_service (p_services self) name.

(** [[self.get_service(name) for name in service_names]] *)
Fixpoint get_each (self : Project) (service_names : list string)
    : result (list Service) :=
  match service_names with
  | [] => Ok []
  | name :: rest =>
      rbind (get_service self name) (fun s =>
      rbind (get_each self rest) (fun tl => Ok (s :: tl)))
  end.

(** [s in unsorted] *)
Definition is_in (s : Service) (unsorted : list Service) : bool :=
  existsb (same_object s) unsorted.

(** [service_names] is [None] when the argument is omitted. *)
Definition get_services (self : Project) (service_names : option (list string))
    : result (list Service) :=
  match service_names with
  | None | Some [] => Ok (p_services self)
  | Some names =>
      rbind (get_each self names) (fun unsorted =>
      Ok (filter (fun s => is_in s unsorted) (p_services self)))
  end.

(** [s] is the handle one of the names resolves to. *)
Definition requested (self : Project) (names : list string) (s : Service)
    : bool :=
  existsb (fun name => match get_service self name with
                       | Ok u => same_object s u
                       | Raise _ => false
                       end) names.

(** Every name of the list is the name of a service of the project. *)
Definition all_exist (self : Project) (names : list string) : Prop :=
  ∀ name, name ∈ names → ∃ s, s ∈ p_services self ∧ s_name s = name.

(** No service of the project has this name. *)
Definition no_such (self : Project) (name : string) : Prop :=
  ∀ s, s ∈ p_services self → s_name s ≠ name.

(** A project of five services without links, in the order A to E. *)
Definition handle (i : nat) (nm : string) : Service :=
  {| s_id := i; s_name := nm; s_client := 0; s_project := "figtest";
     s_links := []; s_options := ∅ |}.

Definition five : Project :=
  {| p_name := "figtest";
     p_services := [handle 0 "A"; handle 1 "B"; handle 2 "C"; handle 3 "D";
                    handle 4 "E"];
     p_client := 0 |}.

(** ** Construction: from_dicts and from_config *)

(** A reference to a dict object. *)
Definition ref : Type := nat.

(** The Python objects construction touches: the dict each reference points
    to, and the identity the next [Service] object gets. *)
Record pystate : Type := mkPystate {
  st_dicts : ref → dict;
  st_fresh : nat
}.

Definition read (r : ref) : M pystate dict :=
  fun st => (Ok (st_dicts st r), st).

(** In-place update of the dict behind [r]. *)
Definition modify (r : ref) (f : dict → dict) : M pystate unit :=
  fun st =>
    (Ok tt, {| st_dicts := <[r := f (st_dicts st r)]> (st_dicts st);
               st_fresh := st_fresh st |}).

(** Modelled from the spec: the constructor call
    [Service(client=client, project=name, links=links, **service_dict)].
    [name] is a required argument; a dict that itself has a key [client] or
    [project] passes that keyword twice. *)
Definition new_Service (cl : client) (project : string) (links : list Service)
    (kwargs : dict) : M pystate Service :=
  fun st =>
    match d_name kwargs with
    | None => (Raise (TypeError "__init__() missing argument: name"), st)
    | Some nm =>
        if bool_decide (is_Some (d_rest kwargs !! "client")
                        ∨ is_Some (d_rest kwargs !! "project"))
        then (Raise (TypeError "got multiple values for keyword argument"), st)
        else (Ok {| s_id := st_fresh st; s_name := nm; s_client := cl;
                    s_project := project; s_links := links;
                    s_options := d_rest kwargs |},
              {| st_dicts := st_dicts st; st_fresh := S (st_fresh st) |})
    end.

(** [for service_name in service_dict.get('links', []):
       links.append(project.get_service(service_name))] *)
Fixpoint resolve_links (project : Project) (names : list string)
    (links : list Service) : result (list Service) :=
  match names with
  | [] => Ok links
  | service_name :: rest =>
      rbind (get_service project service_name) (fun s =>
      resolve_links project rest (links ++ [s]))
  end.

Section construction.
Local Open Scope state_scope.

(** The body of the loop of [from_dicts]: [project] is the project under
    construction, whose [services] list the body appends to. *)
Definition add_service (name : string) (cl : client) (project : Project)
    (service_dict : ref) : M pystate Project :=
  d ← read service_dict;
  links ← match d_links d with
          | Some _ =>
              links ← lift (resolve_links project (get_links d) []);
              _ ← modify service_dict del_links;
              sret links
          | None => sret []
          end;
  kwargs ← read service_dict;
  service ← new_Service cl name links kwargs;
  sret {| p_name := p_name project;
          p_services := p_services project ++ [service];
          p_client := p_client project |}.

(** [for service_dict in ...: ...] *)
Fixpoint add_services (name : string) (cl : client) (dicts : list ref)
    (project : Project) : M pystate Project :=
  match dicts with
  | [] => sret project
  | service_dict :: rest =>
      project' ← add_service name cl project service_dict;
      add_services name cl rest project'
  end.

Definition from_dicts (name : string) (service_dicts : list ref)
    (cl : client) : M pystate Project :=
  sorted ← (fun st => (sort_service_dicts (st_dicts st) service_dicts, st));
  add_services name cl sorted (mkProject name [] cl).

(** [for service_name, service in list(config.items()):
       service['name'] = service_name; dicts.append(service)].
    [items] is the mapping read in iteration order. *)
Fixpoint name_entries (items : list (string * ref)) (dicts : list ref)
    : M pystate (list ref) :=
  match items with
  | [] => sret dicts
  | (service_name, service) :: rest =>
      _ ← modify service (set_name service_name);
      name_entries rest (dicts ++ [service])
  end.

Definition from_config (name : string) (config : list (string * ref))
    (cl : client) : M pystate Project :=
  dicts ← name_entries config [];
  from_dicts name dicts cl.

End construction.

(** ** Bulk lifecycle operations *)

(** The operations a service handle offers that return nothing the project
    looks at. *)
Inductive op : Type := Start | Stop | Kill | Build | RemoveStopped.

Section lifecycle.
(** The runtime below the service layer, the keyword options handed
    through, and the container handles. *)
Context {World Options Container : Type}.

(** The service layer is not in src: what a call does to the runtime, and
    whether it raises, is given by the environment.  [can_be_built] is the
    handle's own answer. *)
Context (service_op : op → Service → Options → World → option exn * World).
Context (service_recreate :
  Service → World → result (list Container * list Container) * World).
Context (can_be_built : Service → bool).

(** A call into the service layer, as the environment sees it. *)
Inductive call : Type :=
  | CallOp (o : op) (s : Service) (options : Options)
  | CallRecreate (s : Service).

(** The runtime, the calls made so far (oldest first) and the lines sent
    to [log.info]. *)
Record lstate : Type := mkLstate {
  world : World;
  calls : list call;
  logged : list string
}.

(** [service.start(...)] and the like, the options handed through. *)
Definition invoke (o : op) (options : Options) (s : Service)
    : M lstate unit :=
  fun st =>
    let (r, w) := service_op o s options (world st) in
    (match r with None => Ok tt | Some e => Raise e end,
     {| world := w; calls := calls st ++ [CallOp o s options];
        logged := logged st |}).

(** [service.recreate_containers()] *)
Definition invoke_recreate (s : Service)
    : M lstate (list Container * list Container) :=
  fun st =>
    let (r, w) := service_recreate s (world st) in
    (r, {| world := w; calls := calls st ++ [CallRecreate s];
           logged := logged st |}).

(** [log.info(msg)] *)
Definition log_info (msg : string) : M lstate unit :=
  fun st =>
    (Ok tt, {| world := world st; calls := calls st;
               logged := logged st ++ [msg] |}).

Local Open Scope state_scope.

Definition start (self : Project) (service_names : option (list string))
    (options : Options) : M lstate unit :=
  services ← lift (get_services self service_names);
  for_each (invoke Start options) services.

Definition stop (self : Project) (service_names : option (list string))
    (options : Options) : M lstate unit :=
  services ← lift (get_services self service_names);
  for_each (invoke Stop options) services.

Definition kill (self : Project) (service_names : option (list string))
    (options : Options) : M lstate unit :=
  services ← lift (get_services self service_names);
  for_each (invoke Kill options) services.

(** The body of the loop of [build]. *)
Definition build_one (options : Options) (service : Service)
    : M lstate unit :=
  if can_be_built service then invoke Build options service
  else log_info (s_name service +:+ " uses an image, skipping").

Definition build (self : Project) (service_names : option (list string))
    (options : Options) : M lstate unit :=
  services ← lift (get_services self service_names);
  for_each (build_one options) services.

Definition remove_stopped (self : Project)
    (service_names : option (list string)) (options : Options)
    : M lstate unit :=
  services ← lift (get_services self service_names);
  for_each (invoke RemoveStopped options) services.

(** The loop of [recreate_containers], with the two lists it extends. *)
Fixpoint recreate_each (services : list Service)
    (old new : list (Service * Container))
    : M lstate (list (Service * Container) * list (Service * Container)) :=
  match services with
  | [] => sret (old, new)
  | service :: rest =>
      r ← invoke_recreate service;
      recreate_each rest
        (old ++ map (fun container => (service, container)) (fst r))
        (new ++ map (fun container => (service, container)) (snd r))
  end.

Definition recreate_containers (self : Project)
    (service_names : option (list string))
    : M lstate (list (Service * Container) * list (Service * Container)) :=
  services ← lift (get_services self service_names);
  recreate_each services [] [].

(** The line [build] logs for a service it skips. *)
Definition skip_note (service : Service) : string :=
  s_name service +:+ " uses an image, skipping".

(** The service layer carries [o] out on each service of the list in turn
    and none of the calls raises; the runtime goes from the first world to
    the second. *)
Inductive succeeds (o : op) (options : Options)
    : list Service → World → World → Prop :=
  | succeeds_nil w : succeeds o options [] w w
  | succeeds_cons s rest w w1 w2 :
      service_op o s options w = (None, w1) →
      succeeds o options rest w1 w2 →
      succeeds o options (s :: rest) w w2.

(** The same for [recreate_containers] of the service layer. *)
Inductive recreates : list Service → World → World → Prop :=
  | recreates_nil w : recreates [] w w
  | recreates_cons s rest r w w1 w2 :
      service_recreate s w = (Ok r, w1) →
      recreates rest w1 w2 →
      recreates (s :: rest) w w2.

(** The calls of one operation on the services of a list, in order. *)
Definition calls_of (o : op) (options : Options) (services : list Service)
    : list call :=
  (fun s => CallOp o s options) <$> services.

End lifecycle.

(** ** Inputs, orders and the conditions on them *)

Section validity.
Context {T : Type} (view : T → dict).

Definition name_of (s : T) : option string := d_name (view s).

(** Every spec carries its name. *)
Definition named (services : list T) : Prop :=
  ∀ s, s ∈ services → is_Some (name_of s).

(** No two specs of the list carry the same name. *)
Definition unique_names (services : list T) : Prop :=
  NoDup (name_of <$> services).

(** Every link names a spec of the list. *)
Definition links_present (services : list T) : Prop :=
  ∀ s l, s ∈ services → l ∈ get_links (view s) →
    ∃ t, t ∈ services ∧ name_of t = Some l.

(** The links of [s] include the name of [s]. *)
Definition self_linked (s : T) : Prop :=
  ∃ nm, name_of s = Some nm ∧ nm ∈ get_links (view s).

Definition no_self_link (services : list T) : Prop :=
  ∀ s, s ∈ services → ¬ self_linked s.

(** The links of [a] include the name of [b]. *)
Definition links_to_spec (a b : T) : Prop :=
  ∃ nb, name_of b = Some nb ∧ nb ∈ get_links (view a).

(** Some spec named [a] links to the name [b]. *)
Definition links_to (services : list T) (a b : string) : Prop :=
  ∃ s, s ∈ services ∧ name_of s = Some a ∧ b ∈ get_links (view s).

(** No name reaches itself along links. *)
Definition acyclic (services : list T) : Prop :=
  ∀ a, ¬ tc (links_to services) a a.

(** A valid input: every spec carries its name, the names are unique, every
    link target is present, no spec links to itself, and the links are
    acyclic. *)
Record valid (services : list T) : Prop := mkValid {
  valid_named : named services;
  valid_unique : unique_names services;
  valid_present : links_present services;
  valid_no_self : no_self_link services;
  valid_acyclic : acyclic services
}.

(** Dependency order: whatever a spec links to stands strictly earlier. *)
Definition links_first (out : list T) : Prop :=
  ∀ i s l, out !! i = Some s → l ∈ get_links (view s) →
    ∃ j t, j < i ∧ out !! j = Some t ∧ name_of t = Some l.

(** [n] fails one of the two checks of the loop: it links to itself, or the
    spec the lookup finds for one of its links links back to it. *)
Definition rejected (services : list T) (n : T) : Prop :=
  self_linked n ∨
  ∃ l b nm, l ∈ get_links (view n) ∧ next_named view l services = Ok b ∧
            name_of n = Some nm ∧ nm ∈ get_links (view b).

(** The test of the comprehension that builds [non_dependent_sevices]. *)
Definition is_non_dependent (flatten_links : list string) (s : T) : bool :=
  match name_of s with
  | Some nm => negb (bool_decide (nm ∈ flatten_links)) && negb (has_links (view s))
  | None => false
  end.

(** The links of the specs of a list, one list after the other. *)
Definition all_links (services : list T) : list string :=
  services ≫= (fun s => get_links (view s)).

(** [x] has no links and is what the lookup finds for a visited link. *)
Definition leaf_of (services : list T) (visited : list string) (x : T) : Prop :=
  has_links (view x) = false ∧
  ∃ l, l ∈ visited ∧ next_named view l services = Ok x.

(** The invariant of the two loops: once the specs [popped] have left the
    stack and the links [visited] have been looked at, [sorted_services]
    holds, once each, the popped specs and the leaves found so far. *)
Definition sorted_inv (services popped : list T) (visited : list string)
    (sorted_services : list T) : Prop :=
  NoDup sorted_services ∧
  ∀ x, x ∈ sorted_services ↔ x ∈ popped ∨ leaf_of services visited x.

(** What [drain] is given as its stack: specs of the list, each with links. *)
Definition stack_of (services stack : list T) : Prop :=
  ∀ n, n ∈ stack → n ∈ services ∧ has_links (view n) = true.

(** [a] stands strictly before [b]. *)
Definition precedes (a b : T) (out : list T) : Prop :=
  ∃ i j, i < j ∧ out !! i = Some a ∧ out !! j = Some b.

End validity.

Definition spec (nm : string) (links : option (list string)) : dict :=
  {| d_name := Some nm; d_links := links; d_rest := ∅ |}.

Definition specA := spec "A" None.
Definition specB := spec "B" (Some ["A"]).
Definition specC := spec "C" (Some ["B"]).

(** Two services that link to each other, one that links to itself, one
    whose link names nothing, and two unlinked namesakes of the first two. *)
Definition web := spec "web" (Some ["db"]).
Definition db := spec "db" (Some ["web"]).
Definition narcissus := spec "narcissus" (Some ["narcissus"]).
Definition orphan := spec "orphan" (Some ["nowhere"]).
Definition web' := spec "web" None.
Definition db' := spec "db" None.

(** A second service named web, with a links key that holds no name. *)
Definition web_idle := spec "web" (Some []).

(** A store that holds the dicts of a list at the references 0, 1, 2, ...
    and has not yet made a service. *)
Definition store (ds : list dict) : pystate :=
  {| st_dicts := fun r => nth r ds (Dict None None ∅); st_fresh := 0 |}.


(** A service layer to try the bulk operations on: the runtime counts the
    calls made, every operation on the service named C raises, and the
    service named B runs a ready-made image. *)
Definition flaky (o : op) (s : Service) (options : unit) (w : nat)
    : option exn * nat :=
  if bool_decide (s_name s = "C") then (Some (Foreign "boom"), S w)
  else (None, S w).

Definition flaky_recreate (s : Service) (w : nat)
    : result (list nat * list nat) * nat :=
  if bool_decide (s_name s = "C") then (Raise (Foreign "boom"), S w)
  else (Ok ([w], [S w]), S w).

Definition has_build (s : Service) : bool :=
  negb (bool_decide (s_name s = "B")).

Definition fresh_runtime : @lstate nat unit :=
  {| world := 0; calls := []; logged := [] |}.

(** ** Further inputs *)

(** Three services that link in a ring, and a dict without a name. *)
Definition ring1 := spec "x" (Some ["y"]).
Definition ring2 := spec "y" (Some ["z"]).
Definition ring3 := spec "z" (Some ["x"]).
Definition nameless : dict := {| d_name := None; d_links := None; d_rest := ∅ |}.

(** An entry of a configuration mapping, before it is given its name: it
    links to db. *)
Definition entry_with_link : dict :=
  {| d_name := None; d_links := Some ["db"]; d_rest := ∅ |}.

(** Two specs of the list link to each other. *)
Definition mutual_link {T} (view : T → dict) (services : list T) : Prop :=
  ∃ a b, a ∈ services ∧ b ∈ services ∧
         links_to_spec view a b ∧ links_to_spec view b a.

(** ** What construction yields *)

(** The dict has neither of the keys the constructor call passes itself. *)
Definition reserved_free (d : dict) : Prop :=
  d_rest d !! "client" = None ∧ d_rest d !! "project" = None.

(** [svc] is the handle made from the dict [d]: it has the name and the
    other fields of the dict, the client and the project name, the
    identity [id], and for links the handles that the names in the links of
    [d] resolve to among the services [earlier]. *)
Definition built (name : string) (cl : client) (d : dict) (id : nat)
    (earlier : list Service) (svc : Service) : Prop :=
  d_name d = Some (s_name svc) ∧ s_id svc = id ∧ s_client svc = cl ∧
  s_project svc = name ∧ s_options svc = d_rest d ∧
  Forall2 (fun nm l => find_service earlier nm = Ok l)
          (get_links d) (s_links svc).

(** The handles [svcs] are made one after the other from the dicts behind
    [refs], each with the next identity and with its links looked up among
    the handles that exist by then. *)
Inductive built_chain (name : string) (cl : client) (h : ref → dict)
    : nat → list Service → list ref → list Service → Prop :=
  | built_nil id earlier : built_chain name cl h id earlier [] []
  | built_cons id earlier r refs svc svcs :
      built name cl (h r) id earlier svc →
      built_chain name cl h (S id) (earlier ++ [svc]) refs svcs →
      built_chain name cl h id earlier (r :: refs) (svc :: svcs).

(** Every link of every handle is a handle that stands earlier in the
    list. *)
Definition links_back (svcs : list Service) : Prop :=
  ∀ i svc l, svcs !! i = Some svc → l ∈ s_links svc → l ∈ take i svcs.

(** ** recreate_containers and containers: what the service layer answers *)

Section recreated.
Context {World Container : Type}.
Context (service_recreate :
  Service → World → result (list Container * list Container) * World).

(** The service layer recreates the containers of each service of the list
    in turn, answers with the pairs of the third argument, and takes the
    runtime from the first world to the second. *)
Inductive recreated
    : list Service → World → list (list Container * list Container) →
      World → Prop :=
  | recreated_nil w : recreated [] w [] w
  | recreated_cons s rest r rs w w1 w2 :
      service_recreate s w = (Ok r, w1) →
      recreated rest w1 rs w2 →
      recreated (s :: rest) w (r :: rs) w2.

End recreated.

(** The containers of each service, each paired with its service, one
    service after the other. *)
Fixpoint tagged {Container} (services : list Service)
    (css : list (list Container)) : list (Service * Container) :=
  match services, css with
  | service :: rest, cs :: css' =>
      ((fun container => (service, container)) <$> cs) ++ tagged rest css'
  | _, _ => []
  end.

Section containers.
(** The state the service layer works on, the arguments handed through,
    and the container handles. *)
Context {St Args Container : Type}.

(** [service.containers(...)] of the service layer, which is not in src. *)
Context (service_containers : Service → Args → M St (list Container)).

(** [for container in ...: l.append(container)] *)
Fixpoint append_each (cs : list Container) (l : list Container)
    : list Container :=
  match cs with
  | [] => l
  | container :: rest => append_each rest (l ++ [container])
  end.

(** [for service in ...: for container in service.containers(...): ...] *)
Fixpoint containers_each (services : list Service) (args : Args)
    (l : list Container) : M St (list Container) :=
  match services with
  | [] => sret l
  | service :: rest =>
      sbind (service_containers service args) (fun cs =>
      containers_each rest args (append_each cs l))
  end.

Definition containers (self : Project) (service_names : option (list string))
    (args : Args) : M St (list Container) :=
  sbind (lift (get_services self service_names)) (fun services =>
  containers_each services args []).

(** The service layer lists the containers of each service of the list in
    turn without raising. *)
Inductive answers (args : Args)
    : list Service → St → list (list Container) → St → Prop :=
  | answers_nil st : answers args [] st [] st
  | answers_cons s rest cs css st st1 st2 :
      service_containers s args st = (Ok cs, st1) →
      answers args rest st1 css st2 →
      answers args (s :: rest) st (cs :: css) st2.

End containers.

(** A service layer to try [containers] on: the state counts the calls,
    each service has one container, numbered by the call that listed it. *)
Definition one_container (s : Service) (args : unit) : M nat (list nat) :=
  fun n => if bool_decide (s_name s = "C") then (Raise (Foreign "boom"), S n)
           else (Ok [n], S n).

(** * Properties *)

(** ** Reading a dict *)

Lemma has_links_getitem d :
  has_links d = true → getitem_links d = Ok (get_links d).
Proof.
  unfold has_links, getitem_links, get_links.
  destruct (d_links d) as [[|? ?]|]; done.
Qed.

Lemma elem_of_get_links_has_links d l :
  l ∈ get_links d → has_links d = true.
Proof.
  unfold has_links, get_links.
  destruct (d_links d) as [[|? ?]|]; intros H; try done; by apply elem_of_nil in H.
Qed.

Lemma has_links_false_get_links d : has_links d = false → get_links d = [].
Proof.
  unfold has_links, get_links. destruct (d_links d) as [[|? ?]|]; done.
Qed.

Lemma getitem_name_Ok d nm : getitem_name d = Ok nm ↔ d_name d = Some nm.
Proof.
  unfold getitem_name. destruct (d_name d); split; intros; simplify_eq; done.
Qed.

Lemma rbind_Ok {A B} (m : result A) (f : A → result B) b :
  rbind m f = Ok b ↔ ∃ a, m = Ok a ∧ f a = Ok b.
Proof.
  destruct m as [a|e]; simpl; split.
  - eauto.
  - by intros (a' & [= ->] & H).
  - done.
  - by intros (a' & [=] & _).
Qed.

(** ** The loops of sort_service_dicts *)

Section sort_facts.
Context {T : Type} (view : T → dict).
Implicit Types (services stack sorted : list T) (s n : T) (l : string).

Lemma next_named_Ok l services s :
  next_named view l services = Ok s → s ∈ services ∧ name_of view s = Some l.
Proof.
  induction services as [|x xs IH]; simpl; [done|].
  unfold getitem_name, name_of. destruct (d_name (view x)) as [nm|] eqn:E; simpl; [|done].
  case_bool_decide as Hl.
  - intros [= ->]. subst. split; [left|done].
  - intros H. destruct (IH H). split; [by right|done].
Qed.

Lemma next_named_present l services t :
  named view services → t ∈ services → name_of view t = Some l →
  ∃ s, next_named view l services = Ok s.
Proof.
  induction services as [|x xs IH]; intros Hn Ht Hl.
  - by apply elem_of_nil in Ht.
  - simpl. destruct (Hn x) as [nm Hnm]; [left|].
    unfold getitem_name. unfold name_of in Hnm. rewrite Hnm. simpl.
    case_bool_decide; [eauto|].
    apply elem_of_cons in Ht as [->|Ht].
    + unfold name_of in Hl. congruence.
    + apply IH; [|done..]. intros y Hy. apply Hn. by right.
Qed.

Lemma next_named_missing l services :
  (∀ t, t ∈ services → name_of view t ≠ Some l) →
  ∃ e, next_named view l services = Raise e.
Proof.
  induction services as [|x xs IH]; intros Hm; simpl; [eauto|].
  unfold getitem_name.
  destruct (d_name (view x)) as [nm|] eqn:E; simpl; [|eauto].
  case_bool_decide as Hl.
  - subst. exfalso. apply (Hm x); [left|done].
  - apply IH. intros t Ht. apply Hm. by right.
Qed.

Lemma unique_names_inj services a b :
  unique_names view services → a ∈ services → b ∈ services →
  name_of view a = name_of view b → a = b.
Proof.
  unfold unique_names. induction services as [|x xs IH]; intros Hu Ha Hb Hab.
  - by apply elem_of_nil in Ha.
  - rewrite fmap_cons in Hu. apply list.NoDup_cons in Hu as [Hx Hu].
    apply elem_of_cons in Ha as [->|Ha]; apply elem_of_cons in Hb as [->|Hb].
    + done.
    + exfalso. apply Hx. rewrite Hab. by apply list_elem_of_fmap_2.
    + exfalso. apply Hx. rewrite <- Hab. by apply list_elem_of_fmap_2.
    + by apply IH.
Qed.

Lemma next_named_unique l services t :
  named view services → unique_names view services →
  t ∈ services → name_of view t = Some l →
  next_named view l services = Ok t.
Proof.
  intros Hn Hu Ht Hl.
  destruct (next_named_present l services t Hn Ht Hl) as [s Hs].
  destruct (next_named_Ok _ _ _ Hs) as [Hin Hname].
  rewrite Hs. f_equal. apply (unique_names_inj services); congruence.
Qed.

(** *** A link whose target is missing *)

Lemma visit_links_missing services n links sorted l :
  l ∈ links → (∃ e, next_named view l services = Raise e) →
  ∃ e, visit_links view services n links sorted = Raise e.
Proof.
  intros Hl [e He]. revert sorted.
  induction links as [|l0 ls IH]; intros sorted; [by apply elem_of_nil in Hl|].
  simpl. destruct (visit_link view services n sorted l0) as [sorted'|e'] eqn:E;
    simpl; [|eauto].
  apply elem_of_cons in Hl as [->|Hl]; [|by apply IH].
  unfold visit_link in E. rewrite He in E. done.
Qed.

Lemma drain_missing services stack sorted s l :
  s ∈ stack → l ∈ get_links (view s) →
  (∃ e, next_named view l services = Raise e) →
  ∃ e, drain view services stack sorted = Raise e.
Proof.
  intros Hs Hl Hm. revert sorted.
  induction stack as [|n rest IH]; intros sorted; [by apply elem_of_nil in Hs|].
  simpl. destruct (getitem_name (view n)) as [nm|e]; simpl; [|eauto].
  case_bool_decide; [eauto|].
  destruct (getitem_links (view n)) as [ls|e] eqn:El; simpl; [|eauto].
  destruct (visit_links view services n ls (sorted ++ [n])) as [sorted'|e] eqn:Ev;
    simpl.
  - apply elem_of_cons in Hs as [->|Hs]; [|by apply IH].
    destruct (visit_links_missing services n ls (sorted ++ [n]) l) as [e He];
      [|done|congruence].
    unfold getitem_links in El. unfold get_links in Hl.
    destruct (d_links (view n)); by simplify_eq.
  - eauto.
Qed.

(** *** The two checks *)

Lemma visit_link_result services n nm sorted l :
  named view services → name_of view n = Some nm →
  (∃ t, t ∈ services ∧ name_of view t = Some l) →
  ∃ b, next_named view l services = Ok b ∧
    ((nm ∈ get_links (view b) ∧
      is_DependencyError (visit_link view services n sorted l)) ∨
     ((nm ∉ get_links (view b)) ∧
      (visit_link view services n sorted l =
         Ok (if negb (has_links (view b)) && negb (contains view sorted b)
             then b :: sorted else sorted)))).
Proof.
  intros Hn Hnm (t & Ht & Hl).
  destruct (next_named_present l services t Hn Ht Hl) as [b Hb].
  exists b. split; [done|].
  unfold visit_link. rewrite Hb. simpl.
  unfold getitem_name. unfold name_of in Hnm. rewrite Hnm. simpl.
  case_bool_decide as Hin.
  - left. split; [done|].
    destruct (next_named_Ok _ _ _ Hb) as [_ Hbn]. unfold name_of in Hbn.
    rewrite Hbn. simpl. by eexists.
  - right. split; [done|]. by destruct (_ && _).
Qed.

Lemma visit_links_rejects services n nm links sorted :
  named view services → name_of view n = Some nm →
  (∀ l, l ∈ links → ∃ t, t ∈ services ∧ name_of view t = Some l) →
  (∃ l b, l ∈ links ∧ next_named view l services = Ok b ∧
          nm ∈ get_links (view b)) →
  is_DependencyError (visit_links view services n links sorted).
Proof.
  intros Hn Hnm. revert sorted.
  induction links as [|l0 ls IH]; intros sorted Hp (l & b & Hl & Hb & Hin).
  { by apply elem_of_nil in Hl. }
  simpl.
  destruct (visit_link_result services n nm sorted l0 Hn Hnm) as (b0 & Hb0 & Hc).
  { apply Hp. by left. }
  destruct Hc as [[_ [msg ->]]|[Hnin ->]]; simpl; [by eexists|].
  apply IH.
  - intros l' Hl'. apply Hp. by right.
  - apply elem_of_cons in Hl as [->|Hl]; [|by eauto].
    exfalso. apply Hnin. congruence.
Qed.

Lemma visit_links_total services n nm links sorted :
  named view services → name_of view n = Some nm →
  (∀ l, l ∈ links → ∃ t, t ∈ services ∧ name_of view t = Some l) →
  is_Ok (visit_links view services n links sorted) ∨
  is_DependencyError (visit_links view services n links sorted).
Proof.
  intros Hn Hnm. revert sorted.
  induction links as [|l0 ls IH]; intros sorted Hp; simpl; [left; by eexists|].
  destruct (visit_link_result services n nm sorted l0 Hn Hnm) as (b0 & Hb0 & Hc).
  { apply Hp. by left. }
  destruct Hc as [[_ [msg ->]]|[_ ->]]; simpl; [right; by eexists|].
  apply IH. intros l' Hl'. apply Hp. by right.
Qed.

Lemma visit_links_accepts services n nm links sorted :
  named view services → name_of view n = Some nm →
  (∀ l, l ∈ links → ∃ t, t ∈ services ∧ name_of view t = Some l) →
  (∀ l b, l ∈ links → next_named view l services = Ok b →
          nm ∉ get_links (view b)) →
  is_Ok (visit_links view services n links sorted).
Proof.
  intros Hn Hnm. revert sorted.
  induction links as [|l0 ls IH]; intros sorted Hp Hgood; simpl; [by eexists|].
  destruct (visit_link_result services n nm sorted l0 Hn Hnm) as (b0 & Hb0 & Hc).
  { apply Hp. by left. }
  destruct Hc as [[Hin _]|[_ ->]]; simpl.
  - exfalso. apply (Hgood l0 b0); [by left|done..].
  - apply IH.
    + intros l' Hl'. apply Hp. by right.
    + intros l' b' Hl'. apply Hgood. by right.
Qed.

Lemma stack_of_cons services n rest :
  stack_of view services (n :: rest) →
  n ∈ services ∧ has_links (view n) = true ∧ stack_of view services rest.
Proof.
  intros H. destruct (H n) as [??]; [left|]. split; [done|split; [done|]].
  intros m Hm. apply H. by right.
Qed.

Lemma drain_rejects services stack sorted :
  named view services → links_present view services →
  stack_of view services stack →
  (∃ n, n ∈ stack ∧ rejected view services n) →
  is_DependencyError (drain view services stack sorted).
Proof.
  intros Hn Hp. revert sorted.
  induction stack as [|n rest IH]; intros sorted Hst (m & Hm & Hrej).
  { by apply elem_of_nil in Hm. }
  apply stack_of_cons in Hst as (Hin & Hl & Hst).
  simpl. destruct (Hn n Hin) as [nm Hnm].
  unfold getitem_name. pose proof Hnm as Hnm'. unfold name_of in Hnm'.
  rewrite Hnm'. simpl.
  case_bool_decide as Hself; [by eexists|].
  rewrite (has_links_getitem _ Hl). simpl.
  destruct (visit_links view services n (get_links (view n)) (sorted ++ [n]))
    as [sorted'|e] eqn:Ev; simpl.
  - apply IH; [done|]. apply elem_of_cons in Hm as [->|Hm]; [|by eauto].
    exfalso. destruct Hrej as [(nm' & Hnm'' & Hs)|(l & b & nm' & Hl' & Hb & Hnm'' & Hback)].
    + assert (nm' = nm) as -> by (unfold name_of in *; congruence). done.
    + assert (nm' = nm) as -> by (unfold name_of in *; congruence).
      destruct (visit_links_rejects services n nm (get_links (view n))
                  (sorted ++ [n]) Hn Hnm) as [msg Hmsg].
      * intros l' Hl''. by apply (Hp n).
      * eauto.
      * congruence.
  - assert (∀ l, l ∈ get_links (view n) →
              ∃ t, t ∈ services ∧ name_of view t = Some l) as Hpn
      by (intros l' Hl''; by apply (Hp n)).
    destruct (visit_links_total services n nm (get_links (view n))
                (sorted ++ [n]) Hn Hnm Hpn) as [[? ?]|[msg ?]]; [congruence|].
    exists msg. congruence.
Qed.

Lemma drain_accepts services stack sorted :
  named view services → links_present view services →
  stack_of view services stack →
  (∀ n, n ∈ stack → ¬ rejected view services n) →
  is_Ok (drain view services stack sorted).
Proof.
  intros Hn Hp. revert sorted.
  induction stack as [|n rest IH]; intros sorted Hst Hgood; simpl; [by eexists|].
  apply stack_of_cons in Hst as (Hin & Hl & Hst).
  destruct (Hn n Hin) as [nm Hnm].
  unfold getitem_name. pose proof Hnm as Hnm'. unfold name_of in Hnm'.
  rewrite Hnm'. simpl.
  assert (¬ rejected view services n) as Hnr by (apply Hgood; left).
  case_bool_decide as Hself.
  { exfalso. apply Hnr. left. by exists nm. }
  rewrite (has_links_getitem _ Hl). simpl.
  destruct (visit_links_accepts services n nm (get_links (view n))
              (sorted ++ [n]) Hn Hnm) as [sorted' ->].
  - intros l Hl'. by apply (Hp n).
  - intros l b Hl' Hb Hback. apply Hnr. right. by exists l, b, nm.
  - simpl. apply IH; [done|]. intros m Hm. apply Hgood. by right.
Qed.

(** *** The two comprehensions *)

Lemma elem_of_dependent_of services s :
  s ∈ dependent_of view services ↔ has_links (view s) = true ∧ s ∈ services.
Proof.
  unfold dependent_of. rewrite list_elem_of_filter, Is_true_true. done.
Qed.

Lemma stack_of_dependent services :
  stack_of view services (reverse (dependent_of view services)).
Proof.
  intros n Hn. apply elem_of_reverse, elem_of_dependent_of in Hn. tauto.
Qed.

Lemma flatten_with_links (deps : list T) :
  (∀ s, s ∈ deps → has_links (view s) = true) →
  flatten view deps = Ok (all_links view deps).
Proof.
  induction deps as [|s rest IH]; intros H; [done|].
  simpl. rewrite (has_links_getitem (view s)) by (apply H; left). simpl.
  rewrite IH by (intros; apply H; by right). done.
Qed.

Lemma flatten_dependent services :
  flatten view (dependent_of view services)
  = Ok (all_links view (dependent_of view services)).
Proof.
  apply flatten_with_links. intros s Hs. by apply elem_of_dependent_of in Hs as [? _].
Qed.

Lemma elem_of_all_links (deps : list T) l :
  l ∈ all_links view deps ↔ ∃ s, s ∈ deps ∧ l ∈ get_links (view s).
Proof.
  unfold all_links. rewrite list_elem_of_bind. split; intros (s & ? & ?); eauto.
Qed.

Lemma non_dependent_of_named fl services :
  named view services →
  non_dependent_of view fl services
  = Ok (filter (fun s => is_non_dependent view fl s) services).
Proof.
  induction services as [|s rest IH]; intros Hn; [done|].
  simpl. destruct (Hn s) as [nm Hnm]; [left|].
  unfold getitem_name. pose proof Hnm as Hnm'. unfold name_of in Hnm'.
  rewrite Hnm'. simpl. rewrite IH by (intros x Hx; apply Hn; by right). simpl.
  assert (is_non_dependent view fl s
          = negb (bool_decide (nm ∈ fl)) && negb (has_links (view s))) as <-
    by (unfold is_non_dependent; by rewrite Hnm).
  rewrite filter_cons.
  destruct (is_non_dependent view fl s); by case_decide.
Qed.

(** *** The outcome of sort_service_dicts *)

Lemma sort_missing services s l :
  s ∈ services → l ∈ get_links (view s) →
  (∀ t, t ∈ services → name_of view t ≠ Some l) →
  ∃ e, sort_service_dicts view services = Raise e.
Proof.
  intros Hs Hl Hm. unfold sort_service_dicts.
  rewrite flatten_dependent. simpl.
  destruct (non_dependent_of view _ services) as [nd|e]; simpl; [|eauto].
  destruct (drain_missing services (reverse (dependent_of view services)) [] s l)
    as [e ->]; simpl; [| |by apply next_named_missing|eauto]; [|done].
  apply elem_of_reverse, elem_of_dependent_of. split; [|done].
  by apply (elem_of_get_links_has_links _ l).
Qed.

Lemma rejected_has_links services n :
  rejected view services n → has_links (view n) = true.
Proof.
  intros [(nm & _ & H)|(l & _ & _ & H & _)];
    by eapply elem_of_get_links_has_links.
Qed.

Lemma sort_rejects services :
  named view services → links_present view services →
  (∃ n, n ∈ services ∧ rejected view services n) →
  is_DependencyError (sort_service_dicts view services).
Proof.
  intros Hn Hp (n & Hin & Hrej). unfold sort_service_dicts.
  rewrite flatten_dependent. simpl.
  rewrite non_dependent_of_named by done. simpl.
  destruct (drain_rejects services (reverse (dependent_of view services)) [])
    as [msg ->]; [done|done|apply stack_of_dependent| |by eexists].
  exists n. split; [|done].
  apply elem_of_reverse, elem_of_dependent_of.
  split; [by eapply rejected_has_links|done].
Qed.

Lemma sort_accepts services :
  named view services → links_present view services →
  (∀ n, n ∈ services → ¬ rejected view services n) →
  ∃ sorted,
    drain view services (reverse (dependent_of view services)) [] = Ok sorted ∧
    sort_service_dicts view services
    = Ok (filter (fun s => is_non_dependent view
                             (all_links view (dependent_of view services)) s)
                 services ++ sorted).
Proof.
  intros Hn Hp Hgood. unfold sort_service_dicts.
  rewrite flatten_dependent. simpl.
  rewrite non_dependent_of_named by done. simpl.
  destruct (drain_accepts services (reverse (dependent_of view services)) [])
    as [sorted Hs]; [done|done|apply stack_of_dependent| |].
  - intros n Hin. apply Hgood.
    by apply elem_of_reverse, elem_of_dependent_of in Hin as [_ ?].
  - exists sorted. rewrite Hs. done.
Qed.

(** *** The invariant of the loops *)

Lemma non_dependent_of_Ok_named fl services nd :
  non_dependent_of view fl services = Ok nd → named view services.
Proof.
  revert nd. induction services as [|s rest IH]; intros nd H x Hx.
  { by apply elem_of_nil in Hx. }
  simpl in H. apply rbind_Ok in H as (nm & Hnm & H).
  apply rbind_Ok in H as (tl & Htl & _).
  apply elem_of_cons in Hx as [->|Hx].
  - exists nm. by apply getitem_name_Ok.
  - by apply (IH tl).
Qed.

Lemma contains_false sorted b : contains view sorted b = false → b ∉ sorted.
Proof.
  intros Hc Hin. unfold contains in Hc.
  assert (existsb (fun y => bool_decide (view y = view b)) sorted = true) as Ht.
  { apply existsb_exists. exists b. split; [by apply list_elem_of_In|].
    by apply bool_decide_eq_true. }
  congruence.
Qed.

Lemma contains_true services sorted b :
  unique_names view services → (∀ y, y ∈ sorted → y ∈ services) →
  b ∈ services → contains view sorted b = true → b ∈ sorted.
Proof.
  intros Hu Hsub Hb Hc. apply existsb_exists in Hc as (y & Hy & Heq).
  apply list_elem_of_In in Hy. apply bool_decide_eq_true in Heq.
  assert (y = b) as <-; [|done].
  apply (unique_names_inj services); auto. unfold name_of. by rewrite Heq.
Qed.

Lemma sorted_inv_sub services popped visited sorted :
  (∀ n, n ∈ popped → n ∈ services) →
  sorted_inv view services popped visited sorted →
  ∀ y, y ∈ sorted → y ∈ services.
Proof.
  intros Hpop [_ Hiff] y Hy. apply Hiff in Hy as [Hy|(_ & l & _ & Hl)]; [auto|].
  by apply next_named_Ok in Hl as [? _].
Qed.

Lemma leaf_of_app services visited l x :
  leaf_of view services (visited ++ [l]) x ↔
  leaf_of view services visited x ∨
  (has_links (view x) = false ∧ next_named view l services = Ok x).
Proof.
  unfold leaf_of. split.
  - intros (Hx & l' & Hl' & Hn). apply elem_of_app in Hl' as [Hl'|Hl'].
    + left. eauto.
    + apply list_elem_of_singleton in Hl' as ->. by right.
  - intros [(Hx & l' & Hl' & Hn)|(Hx & Hn)].
    + split; [done|]. exists l'. split; [|done]. apply elem_of_app. by left.
    + split; [done|]. exists l. split; [|done]. apply elem_of_app. right.
      by apply list_elem_of_singleton.
Qed.

Lemma visit_link_inv services n popped visited sorted l sorted' :
  unique_names view services → (∀ n, n ∈ popped → n ∈ services) →
  sorted_inv view services popped visited sorted →
  visit_link view services n sorted l = Ok sorted' →
  sorted_inv view services popped (visited ++ [l]) sorted'.
Proof.
  intros Hu Hpop Hinv Hv.
  pose proof (sorted_inv_sub _ _ _ _ Hpop Hinv) as Hsub.
  destruct Hinv as [Hnd Hiff].
  unfold visit_link in Hv. apply rbind_Ok in Hv as (b & Hb & Hv).
  apply rbind_Ok in Hv as (nm & _ & Hv).
  case_bool_decide; [by destruct (getitem_name (view b))|].
  destruct (next_named_Ok _ _ _ Hb) as [Hbin Hbn].
  destruct (has_links (view b)) eqn:Hlb; simpl in Hv.
  { (* the linked spec has links of its own: nothing is inserted *)
    injection Hv as <-. split; [done|]. intros x. rewrite Hiff, leaf_of_app.
    split; [tauto|]. intros [?|[?|[Hx Hn']]]; [tauto..|]. congruence. }
  destruct (contains view sorted b) eqn:Hc; simpl in Hv; injection Hv as <-.
  - (* already in the list *)
    split; [done|]. intros x. rewrite leaf_of_app. split.
    + intros Hx. apply Hiff in Hx. tauto.
    + intros [Hx|[Hx|[Hx Hn']]]; [apply Hiff; tauto..|].
      assert (x = b) as -> by congruence.
      by apply (contains_true services).
  - (* inserted at the front *)
    split.
    + apply list.NoDup_cons. split; [by apply contains_false|done].
    + intros x. rewrite elem_of_cons, Hiff, leaf_of_app. split.
      * intros [->|[?|?]]; tauto.
      * intros [?|[?|[Hx Hn']]]; [tauto..|]. left. congruence.
Qed.

Lemma visit_links_inv services n popped visited links sorted sorted' :
  unique_names view services → (∀ n, n ∈ popped → n ∈ services) →
  sorted_inv view services popped visited sorted →
  visit_links view services n links sorted = Ok sorted' →
  sorted_inv view services popped (visited ++ links) sorted'.
Proof.
  intros Hu Hpop. revert visited sorted.
  induction links as [|l ls IH]; intros visited sorted Hinv Hv; simpl in Hv.
  - injection Hv as <-. by rewrite app_nil_r.
  - apply rbind_Ok in Hv as (mid & Hmid & Hv).
    replace (visited ++ l :: ls) with ((visited ++ [l]) ++ ls)
      by (by rewrite <- app_assoc).
    apply (IH _ mid); [|done]. by eapply visit_link_inv.
Qed.

Lemma all_links_cons n (rest : list T) :
  all_links view (n :: rest) = get_links (view n) ++ all_links view rest.
Proof. done. Qed.

Lemma drain_inv services stack popped visited sorted out :
  unique_names view services →
  stack_of view services (popped ++ stack) → NoDup (popped ++ stack) →
  sorted_inv view services popped visited sorted →
  drain view services stack sorted = Ok out →
  sorted_inv view services (popped ++ stack)
    (visited ++ all_links view stack) out.
Proof.
  intros Hu. revert popped visited sorted.
  induction stack as [|n rest IH]; intros popped visited sorted Hst Hnd Hinv Hd.
  { simpl in Hd. injection Hd as <-. by rewrite !app_nil_r. }
  simpl in Hd. apply rbind_Ok in Hd as (nm & Hnm & Hd).
  case_bool_decide; [done|].
  apply rbind_Ok in Hd as (ls & Hls & Hd).
  apply rbind_Ok in Hd as (mid & Hmid & Hd).
  assert (has_links (view n) = true) as Hln.
  { apply Hst. apply elem_of_app. right. left. }
  rewrite (has_links_getitem _ Hln) in Hls. injection Hls as <-.
  replace (popped ++ n :: rest) with ((popped ++ [n]) ++ rest) in *
    by (by rewrite <- app_assoc).
  rewrite all_links_cons, app_assoc.
  apply (IH _ _ mid); [done|done| |done].
  apply (visit_links_inv services n _ _ _ (sorted ++ [n])); [done| | |done].
  { intros m Hm. apply Hst. apply elem_of_app. by left. }
  destruct Hinv as [Hnds Hiff].
  apply list.NoDup_app in Hnd as (Hnd & _ & _).
  apply list.NoDup_app in Hnd as (_ & Hpn & _).
  split.
  - apply list.NoDup_app. split; [done|]. split; [|apply NoDup_singleton].
    intros x Hx Hxn. apply list_elem_of_singleton in Hxn as ->.
    apply Hiff in Hx as [Hx|[Hx _]]; [|congruence].
    apply (Hpn n Hx). by apply list_elem_of_singleton.
  - intros x. rewrite !elem_of_app, Hiff. tauto.
Qed.

Lemma sorted_inv_nil services : sorted_inv view services [] [] [].
Proof.
  split; [apply NoDup_nil_2|]. intros x. split.
  - intros Hx. by apply elem_of_nil in Hx.
  - intros [Hx|(_ & l & Hl & _)]; by apply elem_of_nil in Hx || apply elem_of_nil in Hl.
Qed.

Lemma sort_Ok_permutation services out :
  unique_names view services →
  sort_service_dicts view services = Ok out →
  out ≡ₚ services ∧ NoDup out.
Proof.
  intros Hu Hs. unfold sort_service_dicts in Hs.
  rewrite flatten_dependent in Hs. simpl in Hs.
  apply rbind_Ok in Hs as (nd & Hnd & Hs).
  pose proof (non_dependent_of_Ok_named _ _ _ Hnd) as Hn.
  rewrite non_dependent_of_named in Hnd by done. injection Hnd as <-.
  apply rbind_Ok in Hs as (sorted & Hd & [= <-]).
  set (deps := dependent_of view services) in *.
  set (fl := all_links view deps).
  assert (NoDup services) as Hnds by (by eapply NoDup_fmap_1).
  destruct (drain_inv services (reverse deps) [] [] [] sorted) as [Hnd Hiff];
    [done|apply stack_of_dependent| |apply sorted_inv_nil|done|].
  { simpl. rewrite reverse_Permutation. by apply list.NoDup_filter. }
  simpl in Hiff.
  assert (∀ l, l ∈ all_links view (reverse deps) ↔ l ∈ fl) as Hfl.
  { intros l. unfold fl. rewrite !elem_of_all_links.
    split; intros (s & Hs & Hl); exists s; split; try done;
      by apply elem_of_reverse. }
  assert (∀ x, x ∈ sorted ↔
            (has_links (view x) = true ∧ x ∈ services) ∨
            (has_links (view x) = false ∧ x ∈ services ∧
             ∃ nm, name_of view x = Some nm ∧ nm ∈ fl)) as Hsorted.
  { intros x. rewrite Hiff, elem_of_reverse. unfold deps.
    rewrite elem_of_dependent_of. split.
    - intros [?|(Hx & l & Hl & Hnx)]; [by left|right].
      apply next_named_Ok in Hnx as [??]. split; [done|]. split; [done|].
      exists l. split; [done|]. by apply Hfl.
    - intros [?|(Hx & Hin & nm & Hnm & Hl)]; [by left|right].
      split; [done|]. exists nm. split; [by apply Hfl|].
      by apply next_named_unique. }
  assert (∀ x, x ∈ filter (fun s => is_non_dependent view fl s) services ↔
            has_links (view x) = false ∧ x ∈ services ∧
            ∃ nm, name_of view x = Some nm ∧ nm ∉ fl) as Hnondep.
  { intros x. rewrite list_elem_of_filter, Is_true_true.
    unfold is_non_dependent. split.
    - intros [Hx Hin]. destruct (name_of view x) as [nm|]; [|done].
      apply andb_true_iff in Hx as [H1 H2].
      apply negb_true_iff in H1, H2. apply bool_decide_eq_false in H1.
      split; [done|]. split; [done|]. by exists nm.
    - intros (Hx & Hin & nm & Hnm & Hl). split; [|done].
      rewrite Hnm, Hx. simpl. rewrite andb_true_r. apply negb_true_iff.
      by apply bool_decide_eq_false. }
  assert (NoDup (filter (fun s => is_non_dependent view fl s) services ++ sorted))
    as Hndout.
  { apply list.NoDup_app. split; [by apply list.NoDup_filter|]. split; [|done].
    intros x Hx Hx'. apply Hnondep in Hx as (Hl & _ & nm & Hnm & Hfl').
    apply Hsorted in Hx' as [[? _]|(_ & _ & nm' & Hnm' & ?)]; [congruence|].
    assert (nm' = nm) as -> by congruence. done. }
  split; [|done].
  apply NoDup_Permutation; [done..|].
  intros x. rewrite elem_of_app, Hsorted, Hnondep. split.
  - tauto.
  - intros Hin. destruct (Hn x Hin) as [nm Hnm].
    destruct (has_links (view x)) eqn:Hl; [right; left; done|].
    destruct (decide (nm ∈ fl)).
    + right. right. eauto.
    + left. eauto.
Qed.

Lemma valid_not_rejected services n :
  valid view services → n ∈ services → ¬ rejected view services n.
Proof.
  intros Hv Hin [Hself|(l & b & nm & Hl & Hb & Hnm & Hback)].
  - by apply (valid_no_self _ _ Hv n).
  - apply next_named_Ok in Hb as [Hbin Hbn].
    apply (valid_acyclic _ _ Hv nm).
    apply tc_l with l; [by exists n|]. apply tc_once. by exists b.
Qed.

End sort_facts.

(** *** Checking an input by hand *)

(** A rank that falls along every link rules cycles out. *)
Lemma acyclic_ranked {T} (view : T → dict) services (rank : string → nat) :
  (∀ a b, links_to view services a b → rank b < rank a) →
  acyclic view services.
Proof.
  intros Hr a Hc.
  assert (∀ x y, tc (links_to view services) x y → rank y < rank x) as Hlt.
  { intros x y Hxy. induction Hxy as [x y H|x y z H _ IH].
    - by apply Hr.
    - apply Hr in H. lia. }
  apply Hlt in Hc. lia.
Qed.

Ltac elems H :=
  first [ apply elem_of_nil in H; destruct H
        | apply elem_of_cons in H as [?|H]; [simplify_eq | elems H] ].

Ltac in_list := solve [repeat first [left | right]].

Ltac read_specs :=
  cbv [name_of get_links has_links d_links d_name id
       spec specA specB specC web db narcissus orphan web' db'] in *.

(** The inputs the examples use. *)
Lemma valid_ABC : valid id [specA; specB; specC].
Proof.
  split.
  - intros s Hs. elems Hs; by eexists.
  - unfold unique_names. by apply (bool_decide_unpack _).
  - intros s l Hs Hl. elems Hs; read_specs; elems Hl.
    + exists specA. split; [|done]. by apply (bool_decide_unpack _).
    + exists specB. split; [|done]. by apply (bool_decide_unpack _).
  - intros s Hs (nm & Hnm & Hl).
    elems Hs; read_specs; simplify_eq; elems Hl.
  - apply (acyclic_ranked _ _ (fun nm => if bool_decide (nm = "C") then 2
                                   else if bool_decide (nm = "B") then 1 else 0)).
    intros a b (s & Hs & Hnm & Hl).
    elems Hs; read_specs; simplify_eq; elems Hl; simpl; lia.
Qed.

(** ** sort_service_dicts: main results *)

(** C1.  The order [sort_service_dicts] returns does not always put a link's
    target before the spec that links to it.  The input [A; B; C], with
    A without links, B linking to A and C linking to B, is valid, and the
    function returns [A; C; B]: C stands before the B it links to. *)
Theorem sort_ABC_puts_C_before_B :
  valid id [specA; specB; specC] ∧
  sort_service_dicts id [specA; specB; specC] = Ok [specA; specC; specB] ∧
  ¬ links_first id [specA; specC; specB] ∧
  ¬ precedes specB specC [specA; specC; specB].
Proof.
  split; [apply valid_ABC|]. split; [done|]. split.
  - intros H. destruct (H 1 specC "B") as (j & t & Hj & Ht & Hn); [done|left|].
    assert (j = 0) as -> by lia. simpl in Ht. by simplify_eq.
  - intros (i & j & Hij & Hi & Hj).
    destruct j as [|[|[|j]]]; simpl in Hj; simplify_eq.
    destruct i as [|[|i]]; simpl in Hi; simplify_eq. lia.
Qed.

(** Given in the order C, B, A the same specs come out in dependency
    order. *)
Example sort_CBA_in_order :
  sort_service_dicts id [specC; specB; specA] = Ok [specA; specB; specC].
Proof. done. Qed.

(** C3.  On a valid input (acyclic, no self-link, every link target present,
    unique names) [sort_service_dicts] returns a permutation of its input:
    every spec exactly once, hence the same names, nothing dropped and
    nothing twice; on the empty input it returns the empty list. *)
Theorem sort_service_dicts_permutation {T} (view : T → dict)
    (services : list T) :
  valid view services →
  ∃ out, sort_service_dicts view services = Ok out ∧
         out ≡ₚ services ∧ NoDup out ∧
         name_of view <$> out ≡ₚ name_of view <$> services ∧
         (services = [] → out = []).
Proof.
  intros Hv.
  destruct (sort_accepts view services) as (sorted & _ & Hs).
  - apply Hv.
  - apply Hv.
  - intros n Hn. by apply valid_not_rejected.
  - destruct (sort_Ok_permutation view services _ (valid_unique _ _ Hv) Hs)
      as [Hperm Hnd].
    eexists. split; [done|]. split; [done|]. split; [done|].
    split; [by rewrite Hperm|].
    intros ->. by apply Permutation_nil_r in Hperm.
Qed.

Lemma sort_service_dicts_permutation_witness :
  ∃ out, sort_service_dicts id [specA; specB; specC] = Ok out ∧
         out ≡ₚ [specA; specB; specC] ∧ NoDup out ∧
         name_of id <$> out ≡ₚ name_of id <$> [specA; specB; specC] ∧
         ([specA; specB; specC] = [] → out = []).
Proof.
  exact (sort_service_dicts_permutation id [specA; specB; specC] valid_ABC).
Defined.

(** C4.  When every spec carries a name and every link names a spec of the
    input, an input holding a spec whose links include its own name makes
    [sort_service_dicts] raise [DependencyError]. *)
Theorem self_link_raises_DependencyError {T} (view : T → dict)
    (services : list T) :
  named view services → links_present view services →
  (∃ s, s ∈ services ∧ self_linked view s) →
  is_DependencyError (sort_service_dicts view services).
Proof.
  intros Hn Hp (s & Hs & Hself). apply sort_rejects; [done..|].
  exists s. split; [done|]. by left.
Qed.

Lemma self_link_raises_DependencyError_witness :
  is_DependencyError (sort_service_dicts id [specA; narcissus; specB]).
Proof.
  apply self_link_raises_DependencyError.
  - intros s Hs. elems Hs; by eexists.
  - intros s l Hs Hl. elems Hs; read_specs; elems Hl.
    + exists narcissus. split; [|done]. by apply (bool_decide_unpack _).
    + exists specA. split; [|done]. by apply (bool_decide_unpack _).
  - exists narcissus. split; [by apply (bool_decide_unpack _)|].
    exists "narcissus". split; [done|]. read_specs. left.
Defined.

(** With a namesake of each in front, [web] and [db], which link to each
    other, are sorted: each lookup finds the namesake. *)
Example sort_namesakes :
  sort_service_dicts id [web'; db'; web; db] = Ok [db'; web'; db; web].
Proof. done. Qed.

(** C5 does not hold as stated: with names that are not unique the
    lookup of a link finds the first spec of that name, which need not be
    the one that links back.  Here [web] and [db] link to each other, every
    link target is present and nothing links to itself, and the function
    returns an order. *)
Lemma mutual_links_with_namesakes_are_sorted :
  ¬ (∀ services : list dict,
       named id services → links_present id services →
       no_self_link id services →
       (∃ a b, a ∈ services ∧ b ∈ services ∧ a ≠ b ∧
               links_to_spec id a b ∧ links_to_spec id b a) →
       is_DependencyError (sort_service_dicts id services)).
Proof.
  intros H. destruct (H [web'; db'; web; db]) as [msg Hmsg]; [| | | |done].
  - intros s Hs. elems Hs; by eexists.
  - intros s l Hs Hl. elems Hs; read_specs; elems Hl.
    + exists db'. split; [|done]. by apply (bool_decide_unpack _).
    + exists web'. split; [|done]. by apply (bool_decide_unpack _).
  - intros s Hs (nm & Hnm & Hl). elems Hs; read_specs; simplify_eq; elems Hl.
  - exists web, db. split; [by apply (bool_decide_unpack _)|].
    split; [by apply (bool_decide_unpack _)|]. split; [done|].
    split; [exists "db"|exists "web"]; (split; [done|read_specs; left]).
Qed.

(** C5, amended.  When every spec carries a name, the names are unique,
    every link names a spec of the input and no spec links to itself, an
    input holding two specs that link to each other makes
    [sort_service_dicts] raise [DependencyError]. *)
Theorem mutual_links_raise_DependencyError {T} (view : T → dict)
    (services : list T) :
  named view services → unique_names view services →
  links_present view services → no_self_link view services →
  (∃ a b, a ∈ services ∧ b ∈ services ∧ a ≠ b ∧
          links_to_spec view a b ∧ links_to_spec view b a) →
  is_DependencyError (sort_service_dicts view services).
Proof.
  intros Hn Hu Hp _ (a & b & Ha & Hb & _ & (nb & Hnb & Hab) & (na & Hna & Hba)).
  apply sort_rejects; [done..|].
  exists a. split; [done|]. right. exists nb, b, na.
  split; [done|]. split; [by apply next_named_unique|]. done.
Qed.

Lemma mutual_links_raise_DependencyError_witness :
  is_DependencyError (sort_service_dicts id [specA; web; db]).
Proof.
  apply mutual_links_raise_DependencyError.
  - intros s Hs. elems Hs; by eexists.
  - by apply (bool_decide_unpack _).
  - intros s l Hs Hl. elems Hs; read_specs; elems Hl.
    + exists db. split; [|done]. by apply (bool_decide_unpack _).
    + exists web. split; [|done]. by apply (bool_decide_unpack _).
  - intros s Hs (nm & Hnm & Hl). elems Hs; read_specs; simplify_eq; elems Hl.
  - exists web, db. split; [by apply (bool_decide_unpack _)|].
    split; [by apply (bool_decide_unpack _)|]. split; [done|].
    split; [exists "db"|exists "web"]; (split; [done|read_specs; left]).
Defined.

(** C6.  An input in which some spec links to a name that no spec of the
    input carries makes [sort_service_dicts] raise: it returns no order. *)
Theorem missing_link_target_raises {T} (view : T → dict)
    (services : list T) :
  (∃ s l, s ∈ services ∧ l ∈ get_links (view s) ∧
          ∀ t, t ∈ services → name_of view t ≠ Some l) →
  ∃ e, sort_service_dicts view services = Raise e.
Proof.
  intros (s & l & Hs & Hl & Hm). by apply (sort_missing view services s l).
Qed.

Lemma missing_link_target_raises_witness :
  ∃ e, sort_service_dicts id [specA; orphan] = Raise e.
Proof.
  apply missing_link_target_raises.
  exists orphan, "nowhere". split; [by apply (bool_decide_unpack _)|].
  split; [read_specs; left|].
  intros t Ht. elems Ht; done.
Defined.

(** ** Lookup in a project *)

Lemma find_service_Ok services name s :
  find_service services name = Ok s → s ∈ services ∧ s_name s = name.
Proof.
  induction services as [|x xs IH]; simpl; [done|].
  case_bool_decide.
  - intros [= ->]. split; [left|done].
  - intros H'. destruct (IH H'). split; [by right|done].
Qed.

Lemma find_service_exists services name :
  (∃ s, s ∈ services ∧ s_name s = name) →
  ∃ s, find_service services name = Ok s.
Proof.
  induction services as [|x xs IH]; intros (s & Hs & Hn).
  - by apply elem_of_nil in Hs.
  - simpl. case_bool_decide; [eauto|]. apply IH.
    apply elem_of_cons in Hs as [->|Hs]; [done|eauto].
Qed.

Lemma find_service_missing services name :
  (∀ s, s ∈ services → s_name s ≠ name) →
  find_service services name = Raise (NoSuchService name).
Proof.
  induction services as [|x xs IH]; intros Hm; simpl; [done|].
  case_bool_decide as Hx.
  - exfalso. by apply (Hm x); [left|].
  - apply IH. intros s Hs. apply Hm. by right.
Qed.

Lemma get_each_exist self names :
  all_exist self names → ∃ unsorted, get_each self names = Ok unsorted.
Proof.
  induction names as [|n ns IH]; intros He; simpl; [eauto|].
  destruct (find_service_exists (p_services self) n) as [s Hs].
  { apply He. left. }
  unfold get_service. rewrite Hs. simpl.
  destruct IH as [tl ->]; [|simpl; eauto].
  intros m Hm. apply He. by right.
Qed.

Lemma get_each_missing self pre name post :
  all_exist self pre → no_such self name →
  get_each self (pre ++ name :: post) = Raise (NoSuchService name).
Proof.
  induction pre as [|n ns IH]; intros He Hm; simpl.
  - unfold get_service. by rewrite find_service_missing.
  - destruct (find_service_exists (p_services self) n) as [s Hs].
    { apply He. left. }
    unfold get_service at 1. rewrite Hs. simpl.
    rewrite IH; [done| |done]. intros m Hm'. apply He. by right.
Qed.

Lemma get_each_is_in self names unsorted s :
  get_each self names = Ok unsorted →
  is_in s unsorted = requested self names s.
Proof.
  revert unsorted. induction names as [|n ns IH]; intros unsorted H; simpl in H.
  - by injection H as <-.
  - apply rbind_Ok in H as (u & Hu & H). apply rbind_Ok in H as (tl & Htl & H).
    injection H as <-. unfold requested. simpl. rewrite Hu.
    f_equal. by apply IH.
Qed.

Lemma requested_elem self names s :
  requested self names s = true ↔
  ∃ name u, name ∈ names ∧ get_service self name = Ok u ∧
            same_object s u = true.
Proof.
  unfold requested. rewrite existsb_exists. split.
  - intros (name & Hin & H). apply list_elem_of_In in Hin.
    destruct (get_service self name) as [u|] eqn:E; [|done]. exists name, u. auto.
  - intros (name & u & Hin & Hu & H). exists name.
    split; [by apply list_elem_of_In|]. by rewrite Hu.
Qed.

Lemma requested_Permutation self names names' s :
  names' ≡ₚ names → requested self names' s = requested self names s.
Proof.
  intros Hp. apply eq_true_iff_eq. rewrite !requested_elem.
  split; intros (name & u & Hin & H); exists name, u; split; try done.
  - by rewrite <- Hp.
  - by rewrite Hp.
Qed.

Lemma get_services_filter self names :
  names ≠ [] → all_exist self names →
  get_services self (Some names)
  = Ok (filter (fun s => requested self names s) (p_services self)).
Proof.
  intros Hne He. unfold get_services.
  destruct names as [|n ns]; [done|].
  destruct (get_each_exist self (n :: ns) He) as [unsorted Hu].
  rewrite Hu. simpl. f_equal. apply list_filter_iff. intros s.
  by rewrite (get_each_is_in self (n :: ns) unsorted s Hu).
Qed.

(** C7.  [get_services]: without names, or with the empty list, the whole
    [services] list; with names that all exist, the services the names
    resolve to, as they stand in [services], whatever the order of the
    names; with a name that names no service, [NoSuchService] carrying the
    first such name. *)
Theorem get_services_spec (self : Project) :
  get_services self None = Ok (p_services self) ∧
  get_services self (Some []) = Ok (p_services self) ∧
  (∀ names, names ≠ [] → all_exist self names →
     ∃ out, get_services self (Some names) = Ok out ∧
            out = filter (fun s => requested self names s) (p_services self) ∧
            sublist out (p_services self) ∧
            ∀ names', names' ≡ₚ names →
                      get_services self (Some names') = Ok out) ∧
  (∀ pre name post, all_exist self pre → no_such self name →
     get_services self (Some (pre ++ name :: post))
     = Raise (NoSuchService name)) ∧
  (no_such self "missing" →
     get_services self (Some ["missing"]) = Raise (NoSuchService "missing")).
Proof.
  split; [done|]. split; [done|]. split; [|split].
  - intros names Hne He. eexists. split; [by apply get_services_filter|].
    split; [done|]. split; [apply sublist_filter|].
    intros names' Hp. rewrite get_services_filter.
    + f_equal. apply list_filter_iff. intros s.
      by rewrite (requested_Permutation self names names' s Hp).
    + intros ->. by apply Permutation_nil_l in Hp.
    + intros n Hn. apply He. by rewrite <- Hp.
  - intros pre name post He Hm. unfold get_services.
    rewrite get_each_missing by done. by destruct pre.
  - intros Hm. unfold get_services. simpl. unfold get_service.
    by rewrite find_service_missing.
Qed.

Lemma get_services_spec_witness :
  get_services five (Some ["D"; "B"]) = Ok [handle 1 "B"; handle 3 "D"] ∧
  get_services five (Some ["B"; "D"]) = Ok [handle 1 "B"; handle 3 "D"] ∧
  get_services five (Some ["B"; "missing"; "D"])
  = Raise (NoSuchService "missing").
Proof.
  destruct (get_services_spec five) as (_ & _ & Hsome & Hmiss & _).
  assert (all_exist five ["D"; "B"]) as He.
  { intros n Hn.
    elems Hn; [exists (handle 3 "D")|exists (handle 1 "B")];
      (split; [in_list|done]). }
  destruct (Hsome ["D"; "B"]) as (out & Hout & -> & _ & Hperm); [done|done|].
  split; [exact Hout|]. split.
  - rewrite (Hperm ["B"; "D"]); [done|]. apply Permutation_swap.
  - apply (Hmiss ["B"] "missing" ["D"]).
    + intros n Hn. elems Hn. exists (handle 1 "B"). split; [in_list|done].
    + intros s Hs. by elems Hs.
Defined.

(** ** Construction *)

(** Given in the order C, B, A the three specs are constructed, and the
    handle C holds in its links is the handle of B. *)
Example from_dicts_CBA_links_B :
  ∃ project b c,
    fst (from_dicts "figtest" [0; 1; 2] 0 (store [specC; specB; specA]))
    = Ok project ∧
    get_service project "B" = Ok b ∧ get_service project "C" = Ok c ∧
    s_links c = [b].
Proof. by repeat eexists. Qed.

(** C2.  Given in the order A, B, C (valid: A without links, B linking to A,
    C linking to B) the three specs are not constructed: the sort hands C
    over before B, the lookup of B among the handles constructed so far
    fails, and [from_dicts] raises [NoSuchService].  The orders B, A, C and
    B, C, A fail alike. *)
Theorem from_dicts_ABC_raises_NoSuchService :
  valid id [specA; specB; specC] ∧
  fst (from_dicts "figtest" [0; 1; 2] 0 (store [specA; specB; specC]))
  = Raise (NoSuchService "B") ∧
  fst (from_dicts "figtest" [0; 1; 2] 0 (store [specB; specA; specC]))
  = Raise (NoSuchService "B") ∧
  fst (from_dicts "figtest" [0; 1; 2] 0 (store [specB; specC; specA]))
  = Raise (NoSuchService "B").
Proof. split; [apply valid_ABC|]. by repeat split. Qed.

(** *** What construction does to the dicts *)

Lemma del_links_idem d : del_links (del_links d) = del_links d.
Proof. done. Qed.

Lemma del_links_absent d : d_links d = None → del_links d = d.
Proof. destruct d as [nm ls rest]. simpl. by intros ->. Qed.

Lemma d_name_del_links d : d_name (del_links d) = d_name d.
Proof. done. Qed.

(** One turn of the loop touches only the dict it is given; when it ends
    without an exception that dict has lost its links. *)
Lemma add_service_dicts name cl project r st res st' :
  add_service name cl project r st = (res, st') →
  (∀ q, q ≠ r → st_dicts st' q = st_dicts st q) ∧
  (st_dicts st' r = st_dicts st r ∨
   st_dicts st' r = del_links (st_dicts st r)) ∧
  (is_Ok res → st_dicts st' r = del_links (st_dicts st r)).
Proof.
  unfold add_service, sbind, read, lift, modify, sret, new_Service.
  destruct (d_links (st_dicts st r)) as [ls|] eqn:El; simpl.
  - destruct (resolve_links project (get_links (st_dicts st r)) [])
      as [links|e]; simpl.
    + rewrite fn_lookup_insert. simpl.
      destruct (d_name (st_dicts st r)); [case_bool_decide|];
        intros [= <- <-]; simpl;
        (split; [intros q Hq; by rewrite fn_lookup_insert_ne|]);
        rewrite fn_lookup_insert; (split; [by right|done]).
    + intros [= <- <-]. split; [done|]. split; [by left|]. by intros [? ?].
  - destruct (d_name (st_dicts st r)); [case_bool_decide|];
      intros [= <- <-]; simpl; (split; [done|]);
      rewrite (del_links_absent _ El); (split; [by left|done]).
Qed.

Lemma add_services_dicts name cl dicts project st res st' :
  add_services name cl dicts project st = (res, st') →
  (∀ q, q ∉ dicts → st_dicts st' q = st_dicts st q) ∧
  (∀ q, st_dicts st' q = st_dicts st q ∨
        st_dicts st' q = del_links (st_dicts st q)) ∧
  (is_Ok res → ∀ q, q ∈ dicts → st_dicts st' q = del_links (st_dicts st q)).
Proof.
  revert project st. induction dicts as [|r rest IH]; intros project st; simpl.
  { unfold sret. intros [= <- <-]. split; [done|]. split; [by left|].
    intros _ q Hq. by apply elem_of_nil in Hq. }
  unfold sbind.
  destruct (add_service name cl project r st) as [[project'|e] st1] eqn:E1;
    apply add_service_dicts in E1 as (Hother & Hr & Hdel).
  - intros H. apply IH in H as (Hout & Hany & Hin).
    assert (st_dicts st1 r = del_links (st_dicts st r)) as Hr1
      by (apply Hdel; by eexists).
    split; [|split].
    + intros q Hq. rewrite Hout, Hother; [done| |];
        intros ?; apply Hq; subst; [left|by right].
    + intros q. destruct (decide (q = r)) as [->|Hne].
      * right. destruct (Hany r) as [->| ->]; by rewrite Hr1.
      * rewrite <- (Hother q Hne). apply Hany.
    + intros Hok q Hq. destruct (decide (q = r)) as [->|Hne].
      * destruct (Hany r) as [->| ->]; by rewrite Hr1.
      * rewrite <- (Hother q Hne). apply Hin; [done|].
        by apply elem_of_cons in Hq as [?|?].
  - intros [= <- <-]. split; [|split].
    + intros q Hq. apply Hother. intros ->. apply Hq. left.
    + intros q. destruct (decide (q = r)) as [->|Hne]; [done|].
      left. by apply Hother.
    + by intros [? ?].
Qed.

Lemma from_dicts_dicts name refs cl st res st' :
  from_dicts name refs cl st = (res, st') →
  (∀ q, st_dicts st' q = st_dicts st q ∨
        st_dicts st' q = del_links (st_dicts st q)) ∧
  (is_Ok res →
   ∃ sorted, sort_service_dicts (st_dicts st) refs = Ok sorted ∧
     ∀ q, st_dicts st' q = if decide (q ∈ sorted)
                           then del_links (st_dicts st q) else st_dicts st q).
Proof.
  unfold from_dicts, sbind.
  destruct (sort_service_dicts (st_dicts st) refs) as [sorted|e].
  - intros H. apply add_services_dicts in H as (Hout & Hany & Hin).
    split; [done|]. intros Hok. exists sorted. split; [done|].
    intros q. case_decide; [by apply Hin|by apply Hout].
  - intros [= <- <-]. split; [by left|]. by intros [? ?].
Qed.

Lemma set_name_set_name k k' d : set_name k' (set_name k d) = set_name k' d.
Proof. done. Qed.

Lemma name_entries_dicts items acc st :
  ∃ st1, name_entries items acc st = (Ok (acc ++ items.*2), st1) ∧
    ∀ q, ((q ∉ items.*2) ∧ st_dicts st1 q = st_dicts st q) ∨
         (∃ k, (k, q) ∈ items ∧ st_dicts st1 q = set_name k (st_dicts st q)).
Proof.
  revert acc st. induction items as [|[k r] rest IH]; intros acc st; simpl.
  { exists st. unfold sret. rewrite app_nil_r. split; [done|].
    intros q. left. split; [apply not_elem_of_nil|done]. }
  unfold sbind, modify.
  destruct (IH (acc ++ [r])
              {| st_dicts := <[r:=set_name k (st_dicts st r)]> (st_dicts st);
                 st_fresh := st_fresh st |}) as (st1 & -> & Hq).
  exists st1. rewrite <- app_assoc. split; [done|].
  intros q. simpl in Hq.
  destruct (Hq q) as [[Hnin ->]|(k' & Hin & ->)];
    destruct (decide (q = r)) as [->|Hne].
  - right. exists k. split; [left|]. by rewrite fn_lookup_insert.
  - left. rewrite fn_lookup_insert_ne by done. split; [|done].
    intros [?|?]%elem_of_cons; done.
  - right. exists k'. split; [by right|]. by rewrite fn_lookup_insert.
  - right. exists k'. split; [by right|]. by rewrite fn_lookup_insert_ne.
Qed.

Lemma NoDup_snd_inj {K V} (items : list (K * V)) k k' r :
  NoDup items.*2 → (k, r) ∈ items → (k', r) ∈ items → k = k'.
Proof.
  induction items as [|[k0 r0] rest IH]; intros Hnd H1 H2.
  { by apply elem_of_nil in H1. }
  simpl in Hnd. apply list.NoDup_cons in Hnd as [Hr0 Hnd].
  assert (∀ k1, (k1, r0) ∈ rest → False) as Hno.
  { intros k1 H. apply Hr0. apply list_elem_of_fmap. by exists (k1, r0). }
  apply elem_of_cons in H1 as [?|H1];
    apply elem_of_cons in H2 as [?|H2]; simplify_eq.
  - done.
  - by destruct (Hno _ H2).
  - by destruct (Hno _ H1).
  - by apply IH.
Qed.

(** The sort keeps the first of two services named web and drops the
    second. *)
Example sort_drops_namesake :
  sort_service_dicts id [web'; web_idle; db] = Ok [web'; db].
Proof. done. Qed.

(** C10 does not hold as stated: a dict the sort drops is never looked
    at.  Of two services named web the sort keeps the first; the second
    keeps its links key although construction returns a project. *)
Lemma from_dicts_leaves_dropped_dict :
  ¬ (∀ name refs cl st project st',
       from_dicts name refs cl st = (Ok project, st') →
       ∀ r, r ∈ refs → is_Some (d_links (st_dicts st r)) →
            d_links (st_dicts st' r) = None).
Proof.
  intros H.
  destruct (from_dicts "figtest" [0; 1; 2] 0 (store [web'; web_idle; db]))
    as [res st'] eqn:E.
  assert (is_Ok res ∧ d_links (st_dicts st' 1) = Some []) as [[project ->] Hl].
  { apply (f_equal fst) in E as E1. apply (f_equal snd) in E as E2.
    simpl in E1, E2. subst res st'. split; [by eexists|done]. }
  specialize (H _ _ _ _ _ _ E 1). rewrite Hl in H.
  discriminate H; [in_list|by eexists].
Qed.

(** C10, amended.  When the names are unique and [from_dicts] returns a
    project, every dict it was given has lost its links key and is
    otherwise as before, and no other dict has changed.  [from_config]
    writes a name into every entry whatever the outcome; when the entries
    are distinct objects under distinct keys and a project is returned,
    every entry ends up with its key as name and without its links key. *)
Theorem construction_mutates_dicts (name : string) (cl : client)
    (st : pystate) (res : result Project) (st' : pystate) :
  (∀ refs, unique_names (st_dicts st) refs →
     from_dicts name refs cl st = (res, st') → is_Ok res →
     (∀ r, r ∈ refs → st_dicts st' r = del_links (st_dicts st r)) ∧
     (∀ r, r ∉ refs → st_dicts st' r = st_dicts st r)) ∧
  (∀ config, from_config name config cl st = (res, st') →
     (∀ k r, (k, r) ∈ config →
        ∃ k', (k', r) ∈ config ∧ d_name (st_dicts st' r) = Some k') ∧
     (NoDup config.*1 → NoDup config.*2 → is_Ok res →
        ∀ k r, (k, r) ∈ config →
          st_dicts st' r = del_links (set_name k (st_dicts st r)))).
Proof.
  assert (∀ st0 refs, unique_names (st_dicts st0) refs →
            from_dicts name refs cl st0 = (res, st') → is_Ok res →
            ∀ r, st_dicts st' r = if decide (r ∈ refs)
                                  then del_links (st_dicts st0 r)
                                  else st_dicts st0 r) as Hfd.
  { intros st0 refs Hu H Hok.
    apply from_dicts_dicts in H as [_ H].
    destruct (H Hok) as (sorted & Hs & Hq).
    apply sort_Ok_permutation in Hs as [Hp _]; [|done].
    intros r. rewrite Hq. by do 2 case_decide; rewrite ?Hp in *. }
  split.
  - intros refs Hu H Hok. pose proof (Hfd st refs Hu H Hok) as Hq.
    split; intros r Hr; rewrite Hq; by case_decide.
  - intros config H. unfold from_config, sbind in H.
    destruct (name_entries_dicts config [] st) as (st1 & E1 & Hq1).
    rewrite E1 in H. simpl in H.
    assert (∀ k r, (k, r) ∈ config →
              ∃ k', (k', r) ∈ config ∧
                    st_dicts st1 r = set_name k' (st_dicts st r)) as Hnamed.
    { intros k r Hin. destruct (Hq1 r) as [[Hnin _]|?]; [|done].
      exfalso. apply Hnin. apply list_elem_of_fmap. by exists (k, r). }
    split.
    + intros k r Hin. destruct (Hnamed k r Hin) as (k' & Hin' & Hk').
      exists k'. split; [done|].
      apply from_dicts_dicts in H as [Hany _].
      destruct (Hany r) as [-> | ->]; by rewrite Hk'.
    + intros Hk Hr Hok k r Hin.
      assert (∀ k r, (k, r) ∈ config →
                st_dicts st1 r = set_name k (st_dicts st r)) as Hexact.
      { intros k0 r0 Hin0. destruct (Hnamed k0 r0 Hin0) as (k' & Hin' & ->).
        by rewrite (NoDup_snd_inj config k0 k' r0). }
      assert (unique_names (st_dicts st1) config.*2) as Hu.
      { unfold unique_names.
        replace (name_of (st_dicts st1) <$> config.*2) with (Some <$> config.*1).
        { by apply (NoDup_fmap_2 Some). }
        rewrite <- !list_fmap_compose. apply list_fmap_ext.
        intros i [k0 r0] Hi. simpl. unfold name_of.
        by rewrite (Hexact k0 r0) by (by eapply list_elem_of_lookup_2). }
      rewrite (Hfd st1 config.*2 Hu H Hok r).
      rewrite decide_True by (apply list_elem_of_fmap; by exists (k, r)).
      by rewrite (Hexact k r).
Qed.

Lemma construction_mutates_dicts_witness :
  ∃ st', snd (from_dicts "figtest" [0; 1; 2] 0 (store [specC; specB; specA]))
         = st' ∧
         st_dicts st' 0 = del_links specC ∧ st_dicts st' 1 = del_links specB ∧
         st_dicts st' 3 = st_dicts (store [specC; specB; specA]) 3.
Proof.
  destruct (from_dicts "figtest" [0; 1; 2] 0 (store [specC; specB; specA]))
    as [res st'] eqn:E.
  exists st'. split; [done|].
  assert (is_Ok res) as Hok.
  { apply (f_equal fst) in E. simpl in E. subst res. by eexists. }
  destruct (construction_mutates_dicts "figtest" 0
              (store [specC; specB; specA]) res st') as [Hfd _].
  destruct (Hfd [0; 1; 2]) as [Hin Hout]; [|done|done|].
  { by apply (bool_decide_unpack _). }
  split; [|split].
  - apply (Hin 0). in_list.
  - apply (Hin 1). in_list.
  - apply (Hout 3). intros Hr. by elems Hr.
Defined.

(** ** Bulk lifecycle operations *)

Lemma for_each_app {St A} (body : A → M St unit) (xs ys : list A) (st : St) :
  for_each body (xs ++ ys) st
  = match for_each body xs st with
    | (Ok _, st1) => for_each body ys st1
    | (Raise e, st1) => (Raise e, st1)
    end.
Proof.
  revert st. induction xs as [|x xs IH]; intros st; simpl; [done|].
  unfold sbind. destruct (body x st) as [[[]|e] st1]; [apply IH|done].
Qed.

Section lifecycle_facts.
Context {World Options Container : Type}.
Context (service_op : op → Service → Options → World → option exn * World).
Context (service_recreate :
  Service → World → result (list Container * list Container) * World).
Context (can_be_built : Service → bool).

Local Abbreviation lstate := (@lstate World Options).
Local Abbreviation invoke := (invoke service_op).
Local Abbreviation succeeds := (succeeds service_op).
Local Abbreviation recreates := (recreates service_recreate).
Local Abbreviation build_one := (build_one service_op can_be_built).

Implicit Types (st : lstate) (s : Service) (w : World).

Lemma lstate_same st :
  {| world := world st; calls := calls st ++ []; logged := logged st ++ [] |}
  = st.
Proof. destruct st. simpl. by rewrite !app_nil_r. Qed.

(** The loop of the four plain operations when no call raises. *)
Lemma for_each_invoke_succeeds o options services st w' :
  succeeds o options services (world st) w' →
  for_each (invoke o options) services st
  = (Ok tt, {| world := w';
               calls := calls st ++ calls_of o options services;
               logged := logged st |}).
Proof.
  revert st. induction services as [|s rest IH]; intros st H;
    inversion H as [|? ? ? w1 ? Hs Hrest]; subst; simpl.
  - unfold sret. f_equal. destruct st. simpl. by rewrite app_nil_r.
  - unfold sbind, invoke at 1. rewrite Hs.
    rewrite IH by exact Hrest. simpl. unfold calls_of. simpl.
    by rewrite <- app_assoc.
Qed.

(** The loop when the call on [s] is the first that raises. *)
Lemma for_each_invoke_raises o options pre s post st w1 e w2 :
  succeeds o options pre (world st) w1 →
  service_op o s options w1 = (Some e, w2) →
  for_each (invoke o options) (pre ++ s :: post) st
  = (Raise e, {| world := w2;
                 calls := calls st ++ calls_of o options (pre ++ [s]);
                 logged := logged st |}).
Proof.
  intros Hpre Hs. rewrite for_each_app.
  rewrite (for_each_invoke_succeeds _ _ _ _ _ Hpre). simpl.
  unfold sbind, invoke at 1. simpl. rewrite Hs.
  unfold calls_of. by rewrite fmap_app, app_assoc.
Qed.

(** The loop of [build] when no call raises. *)
Lemma for_each_build_succeeds options services st w' :
  succeeds Build options (filter (fun s => can_be_built s) services)
    (world st) w' →
  for_each (build_one options) services st
  = (Ok tt,
     {| world := w';
        calls := calls st ++ calls_of Build options
                               (filter (fun s => can_be_built s) services);
        logged := logged st ++ (skip_note <$>
                    filter (fun s => ¬ can_be_built s) services) |}).
Proof.
  revert st. induction services as [|s rest IH]; intros st H; simpl.
  { inversion H; subst. unfold sret. by rewrite lstate_same. }
  rewrite !filter_cons in *. unfold sbind, build_one at 1.
  destruct (can_be_built s) eqn:Hb; simpl in *.
  - inversion H as [|? ? ? w1 ? Hs Hrest]; subst.
    unfold invoke at 1. rewrite Hs. rewrite IH by exact Hrest. simpl.
    unfold calls_of. simpl. by rewrite <- app_assoc.
  - rewrite IH by exact H. simpl. by rewrite <- app_assoc.
Qed.

(** What the loop of [build] has called, whatever its outcome. *)
Lemma for_each_build_calls options services st res st' :
  for_each (build_one options) services st = (res, st') →
  ∃ invoked,
    calls st' = calls st ++ calls_of Build options invoked ∧
    invoked `prefix_of` filter (fun s => can_be_built s) services ∧
    (is_Ok res → invoked = filter (fun s => can_be_built s) services) ∧
    (∀ e, res = Raise e →
       ∃ s w, s ∈ services ∧ can_be_built s = true ∧
              fst (service_op Build s options w) = Some e).
Proof.
  revert st. induction services as [|s rest IH]; intros st H; simpl in H.
  { injection H as <- <-. exists []. simpl. rewrite app_nil_r.
    split; [done|]. split; [done|]. split; [done|]. by intros e. }
  rewrite filter_cons. unfold sbind, build_one at 1 in H.
  destruct (can_be_built s) eqn:Hb; simpl.
  - unfold invoke at 1 in H.
    destruct (service_op Build s options (world st)) as [[e|] w1] eqn:Hs.
    + injection H as <- <-. exists [s]. simpl. split; [done|].
      split; [by apply prefix_cons, prefix_nil|].
      split; [by intros [? ?]|]. intros e' [= <-].
      exists s, (world st). split; [left|]. split; [done|]. by rewrite Hs.
    + apply IH in H as (invoked & Hc & Hp & Hok & He). simpl in Hc.
      exists (s :: invoked). rewrite Hc. unfold calls_of. simpl.
      rewrite <- app_assoc. split; [done|].
      split; [by apply prefix_cons|].
      split; [intros ?; f_equal; auto|].
      intros e Hr. destruct (He e Hr) as (s' & w & ? & ? & ?).
      exists s', w. split; [by right|done].
  - unfold log_info in H.
    apply IH in H as (invoked & Hc & Hp & Hok & He). simpl in Hc.
    exists invoked. split; [done|]. split; [done|]. split; [done|].
    intros e Hr. destruct (He e Hr) as (s' & w & ? & ? & ?).
    exists s', w. split; [by right|done].
Qed.

Lemma recreate_each_raises pre s post old new st w1 e w2 :
  recreates pre (world st) w1 →
  service_recreate s w1 = (Raise e, w2) →
  recreate_each service_recreate (pre ++ s :: post) old new st
  = (Raise e, {| world := w2;
                 calls := calls st ++ (CallRecreate <$> (pre ++ [s]));
                 logged := logged st |}).
Proof.
  revert old new st. induction pre as [|x pre IH]; intros old new st H Hs;
    inversion H as [|? ? r ? w0 ? Hx Hpre]; subst; simpl.
  - unfold sbind, invoke_recreate. by rewrite Hs.
  - unfold sbind, invoke_recreate at 1. rewrite Hx.
    rewrite IH; [|exact Hpre|exact Hs]. simpl. by rewrite <- app_assoc.
Qed.

(** C8.  [build] calls the build of the service layer on the selected
    services that can be built and on no other, in the order of the
    selection.  When none of these calls raises it returns, having called
    each of them and logged a line for each service it skipped.  Whatever
    the outcome, the calls it has made are an initial stretch of the
    buildable selected services, and an exception it raises is one a build
    of the service layer raised on such a service. *)
Theorem build_only_what_can_be_built (self : Project)
    (names : option (list string)) (options : Options)
    (services : list Service) (st : lstate) :
  get_services self names = Ok services →
  (∀ w', succeeds Build options (filter (fun s => can_be_built s) services)
           (world st) w' →
     build service_op can_be_built self names options st
     = (Ok tt,
        {| world := w';
           calls := calls st ++ calls_of Build options
                                  (filter (fun s => can_be_built s) services);
           logged := logged st ++ (skip_note <$>
                       filter (fun s => ¬ can_be_built s) services) |})) ∧
  (∀ res st',
     build service_op can_be_built self names options st = (res, st') →
     ∃ invoked,
       calls st' = calls st ++ calls_of Build options invoked ∧
       invoked `prefix_of` filter (fun s => can_be_built s) services ∧
       (is_Ok res → invoked = filter (fun s => can_be_built s) services) ∧
       (∀ e, res = Raise e →
          ∃ s w, s ∈ services ∧ can_be_built s = true ∧
                 fst (service_op Build s options w) = Some e)).
Proof.
  intros Hsel. unfold build, sbind, lift. rewrite Hsel. split.
  - intros w' Hok. by apply for_each_build_succeeds.
  - intros res st' H. by apply for_each_build_calls in H.
Qed.

(** C9.  When the service layer carries the operation out on the services
    before [s] and raises on [s], each of the six bulk operations raises
    that very exception; the calls made are those on the services up to
    [s] and none on a later one, and the runtime is left as the failed call
    left it. *)
Theorem failure_stops_bulk_operation (self : Project)
    (names : option (list string)) (options : Options)
    (pre : list Service) (s : Service) (post : list Service)
    (st : lstate) (w1 : World) (e : exn) (w2 : World) :
  get_services self names = Ok (pre ++ s :: post) →
  (∀ o run,
     (o, run) ∈ [(Start, start service_op); (Stop, stop service_op);
                 (Kill, kill service_op);
                 (RemoveStopped, remove_stopped service_op)] →
     succeeds o options pre (world st) w1 →
     service_op o s options w1 = (Some e, w2) →
     run self names options st
     = (Raise e, {| world := w2;
                    calls := calls st ++ calls_of o options (pre ++ [s]);
                    logged := logged st |})) ∧
  (succeeds Build options (filter (fun s => can_be_built s) pre)
     (world st) w1 →
   can_be_built s = true →
   service_op Build s options w1 = (Some e, w2) →
   build service_op can_be_built self names options st
   = (Raise e,
      {| world := w2;
         calls := calls st ++ calls_of Build options
                    (filter (fun s => can_be_built s) pre ++ [s]);
         logged := logged st ++ (skip_note <$>
                     filter (fun s => ¬ can_be_built s) pre) |})) ∧
  (recreates pre (world st) w1 →
   service_recreate s w1 = (Raise e, w2) →
   recreate_containers service_recreate self names st
   = (Raise e, {| world := w2;
                  calls := calls st ++ (CallRecreate <$> (pre ++ [s]));
                  logged := logged st |})).
Proof.
  intros Hsel. split; [|split].
  - intros o run Hrun Hpre Hs.
    elems Hrun; unfold start, stop, kill, remove_stopped, sbind, lift;
      rewrite Hsel; eapply for_each_invoke_raises; eassumption.
  - intros Hpre Hb Hs. unfold build, sbind, lift. rewrite Hsel.
    rewrite for_each_app, (for_each_build_succeeds _ _ _ _ Hpre). simpl.
    unfold sbind, build_one at 1. rewrite Hb. unfold invoke at 1. simpl.
    rewrite Hs. unfold calls_of. by rewrite fmap_app, app_assoc.
  - intros Hpre Hs. unfold recreate_containers, sbind, lift. rewrite Hsel.
    eapply recreate_each_raises; eassumption.
Qed.

End lifecycle_facts.

Lemma build_only_what_can_be_built_witness :
  build flaky has_build five (Some ["B"; "A"]) () fresh_runtime
  = (Ok (), {| world := 1; calls := [CallOp Build (handle 0 "A") ()];
               logged := ["B uses an image, skipping"] |}).
Proof.
  destruct (build_only_what_can_be_built flaky has_build five
              (Some ["B"; "A"]) () [handle 0 "A"; handle 1 "B"] fresh_runtime)
    as [Hok _]; [done|].
  apply (Hok 1). by repeat econstructor.
Defined.

Lemma failure_stops_bulk_operation_witness :
  start flaky five None () fresh_runtime
  = (Raise (Foreign "boom"),
     {| world := 3;
        calls := [CallOp Start (handle 0 "A") (); CallOp Start (handle 1 "B") ();
                  CallOp Start (handle 2 "C") ()];
        logged := [] |}) ∧
  build flaky has_build five None () fresh_runtime
  = (Raise (Foreign "boom"),
     {| world := 2;
        calls := [CallOp Build (handle 0 "A") (); CallOp Build (handle 2 "C") ()];
        logged := ["B uses an image, skipping"] |}) ∧
  recreate_containers flaky_recreate five None fresh_runtime
  = (Raise (Foreign "boom"),
     {| world := 3;
        calls := [CallRecreate (handle 0 "A"); CallRecreate (handle 1 "B");
                  CallRecreate (handle 2 "C")];
        logged := [] |}).
Proof.
  split; [|split].
  - destruct (failure_stops_bulk_operation flaky flaky_recreate has_build
                five None () [handle 0 "A"; handle 1 "B"] (handle 2 "C")
                [handle 3 "D"; handle 4 "E"] fresh_runtime 2
                (Foreign "boom") 3) as (Hplain & _ & _); [done|].
    apply (Hplain Start); [in_list|by repeat econstructor|done].
  - destruct (failure_stops_bulk_operation flaky flaky_recreate has_build
                five None () [handle 0 "A"; handle 1 "B"] (handle 2 "C")
                [handle 3 "D"; handle 4 "E"] fresh_runtime 1
                (Foreign "boom") 2) as (_ & Hbuild & _); [done|].
    apply Hbuild; [by repeat econstructor|done..].
  - destruct (failure_stops_bulk_operation flaky flaky_recreate has_build
                five None () [handle 0 "A"; handle 1 "B"] (handle 2 "C")
                [handle 3 "D"; handle 4 "E"] fresh_runtime 2
                (Foreign "boom") 3) as (_ & _ & Hrec); [done|].
    apply Hrec; [by repeat econstructor|done].
Defined.

(** * Further properties *)

(** ** sort_service_dicts: shape of the order and kinds of failure *)

Section sort_more.
Context {T : Type} (view : T → dict).
Implicit Types (services stack sorted : list T) (s n : T) (l : string).

(** A turn of the inner loop leaves the list alone or puts a spec without
    links at its front. *)
Lemma visit_link_front services n sorted l sorted' :
  visit_link view services n sorted l = Ok sorted' →
  sorted' = sorted ∨
  ∃ b, sorted' = b :: sorted ∧ next_named view l services = Ok b ∧
       has_links (view b) = false.
Proof.
  unfold visit_link. intros H. apply rbind_Ok in H as (b & Hb & H).
  apply rbind_Ok in H as (nm & _ & H).
  case_bool_decide; [by destruct (getitem_name (view b))|].
  destruct (has_links (view b)) eqn:Hl; simpl in H; [left; congruence|].
  destruct (contains view sorted b); simpl in H; injection H as <-;
    [by left|right; by exists b].
Qed.

Lemma visit_links_front services n links sorted sorted' :
  visit_links view services n links sorted = Ok sorted' →
  ∃ front, sorted' = front ++ sorted ∧
    ∀ x, x ∈ front → has_links (view x) = false ∧
                     ∃ l, l ∈ links ∧ next_named view l services = Ok x.
Proof.
  revert sorted. induction links as [|l ls IH]; intros sorted H; simpl in H.
  { injection H as <-. exists []. split; [done|]. intros x Hx.
    by apply elem_of_nil in Hx. }
  apply rbind_Ok in H as (mid & Hmid & H).
  apply IH in H as (front & -> & Hfront).
  apply visit_link_front in Hmid as [->|(b & -> & Hb & Hl)].
  - exists front. split; [done|]. intros x Hx.
    destruct (Hfront x Hx) as (? & l' & ? & ?). split; [done|].
    exists l'. split; [by right|done].
  - exists (front ++ [b]). split; [by rewrite <- app_assoc|].
    intros x [Hx|Hx]%elem_of_app.
    + destruct (Hfront x Hx) as (? & l' & ? & ?). split; [done|].
      exists l'. split; [by right|done].
    + apply list_elem_of_singleton in Hx as ->. split; [done|].
      exists l. split; [left|done].
Qed.

Lemma drain_front services stack sorted out :
  stack_of view services stack →
  drain view services stack sorted = Ok out →
  ∃ front, out = front ++ sorted ++ stack ∧
    ∀ x, x ∈ front → has_links (view x) = false ∧
                     ∃ l, l ∈ all_links view stack ∧
                          next_named view l services = Ok x.
Proof.
  revert sorted. induction stack as [|n rest IH]; intros sorted Hst H.
  { simpl in H. injection H as <-. exists []. rewrite app_nil_r.
    split; [done|]. intros x Hx. by apply elem_of_nil in Hx. }
  apply stack_of_cons in Hst as (_ & Hln & Hst).
  simpl in H. apply rbind_Ok in H as (nm & _ & H).
  case_bool_decide; [done|].
  apply rbind_Ok in H as (ls & Hls & H).
  rewrite (has_links_getitem _ Hln) in Hls. injection Hls as <-.
  apply rbind_Ok in H as (mid & Hmid & H).
  apply visit_links_front in Hmid as (f1 & -> & Hf1).
  apply IH in H as (f2 & -> & Hf2); [|done].
  exists (f2 ++ f1). split; [by rewrite <- !app_assoc|].
  intros x [Hx|Hx]%elem_of_app; rewrite all_links_cons.
  - destruct (Hf2 x Hx) as (? & l & ? & ?). split; [done|].
    exists l. split; [|done]. apply elem_of_app. by right.
  - destruct (Hf1 x Hx) as (? & l & ? & ?). split; [done|].
    exists l. split; [|done]. apply elem_of_app. by left.
Qed.

Lemma sort_shape (services out : list T) :
  sort_service_dicts view services = Ok out →
  ∃ leaves,
    out = filter (fun s => is_non_dependent view
                    (all_links view (dependent_of view services)) s) services
          ++ leaves ++ reverse (dependent_of view services) ∧
    ∀ x, x ∈ leaves →
         x ∈ services ∧ has_links (view x) = false ∧
         ∃ l, l ∈ all_links view (dependent_of view services) ∧
              name_of view x = Some l.
Proof.
  intros Hs. unfold sort_service_dicts in Hs.
  rewrite flatten_dependent in Hs. simpl in Hs.
  apply rbind_Ok in Hs as (nd & Hnd & Hs).
  pose proof (non_dependent_of_Ok_named view _ _ _ Hnd) as Hn.
  rewrite (non_dependent_of_named view) in Hnd by done. injection Hnd as <-.
  apply rbind_Ok in Hs as (sorted & Hd & [= <-]).
  apply drain_front in Hd as (front & -> & Hfront);
    [|apply stack_of_dependent].
  exists front. split; [done|]. intros x Hx.
  destruct (Hfront x Hx) as (Hl & l & Hin & Hnx).
  apply next_named_Ok in Hnx as [? ?]. split; [done|]. split; [done|].
  exists l. split; [|done].
  apply elem_of_all_links in Hin as (s & Hs' & Hls).
  apply elem_of_all_links. exists s. split; [|done].
  by apply elem_of_reverse.
Qed.

(** X1.  An order [sort_service_dicts] returns has three parts: the specs
    that neither link nor are linked to, in input order; then specs
    without links that some link names; then the specs with links, in the
    reverse of their input order. *)
Theorem sort_service_dicts_shape (services out : list T) :
  sort_service_dicts view services = Ok out →
  ∃ leaves,
    out = filter (fun s => is_non_dependent view
                    (all_links view (dependent_of view services)) s) services
          ++ leaves ++ reverse (dependent_of view services) ∧
    ∀ x, x ∈ leaves →
         x ∈ services ∧ has_links (view x) = false ∧
         ∃ l, l ∈ all_links view (dependent_of view services) ∧
              name_of view x = Some l.
Proof. apply sort_shape. Qed.

(** X2.  When no spec has links the input comes back as it is. *)
Theorem sort_without_links_is_identity (services : list T) :
  named view services →
  (∀ s, s ∈ services → has_links (view s) = false) →
  sort_service_dicts view services = Ok services.
Proof.
  intros Hn Hno.
  assert (dependent_of view services = []) as Hdeps.
  { unfold dependent_of. induction services as [|s rest IH]; [done|].
    rewrite filter_cons, decide_False.
    - apply IH; intros x Hx; [apply Hn|apply Hno]; by right.
    - rewrite (Hno s) by left. simpl. tauto. }
  unfold sort_service_dicts. rewrite Hdeps. simpl.
  rewrite (non_dependent_of_named view) by done. simpl.
  rewrite app_nil_r. f_equal. clear Hdeps.
  induction services as [|s rest IH]; [done|].
  rewrite filter_cons, decide_True.
  - f_equal. apply IH; intros x Hx; [apply Hn|apply Hno]; by right.
  - unfold is_non_dependent. destruct (Hn s) as [nm ->]; [left|].
    rewrite (Hno s) by left. done.
Qed.

Lemma non_dependent_of_Raise fl services e :
  non_dependent_of view fl services = Raise e →
  e = KeyError "name" ∧ ∃ s, s ∈ services ∧ name_of view s = None.
Proof.
  induction services as [|s rest IH]; simpl; [done|].
  unfold getitem_name, name_of in *.
  destruct (d_name (view s)) as [nm|] eqn:E; simpl.
  - destruct (non_dependent_of view fl rest) as [tl|e']; simpl; [done|].
    intros [= ->]. destruct IH as (-> & x & Hx & Hnx); [done|].
    split; [done|]. exists x. split; [by right|done].
  - intros [= <-]. split; [done|]. exists s. split; [left|done].
Qed.

Lemma non_dependent_of_nameless fl services s :
  s ∈ services → name_of view s = None →
  non_dependent_of view fl services = Raise (KeyError "name").
Proof.
  intros Hs Hn.
  destruct (non_dependent_of view fl services) as [nd|e] eqn:E.
  - apply non_dependent_of_Ok_named in E. destruct (E s Hs) as [nm Hnm].
    congruence.
  - by apply non_dependent_of_Raise in E as [-> _].
Qed.

(** X3.  A dict without the key [name] makes the call raise [KeyError]:
    the comprehension that reads every name runs before the loop. *)
Theorem sort_nameless_raises_KeyError (services : list T) :
  (∃ s, s ∈ services ∧ name_of view s = None) →
  sort_service_dicts view services = Raise (KeyError "name").
Proof.
  intros (s & Hs & Hn). unfold sort_service_dicts.
  rewrite flatten_dependent. simpl.
  by rewrite (non_dependent_of_nameless _ _ s).
Qed.

(** Why the loop raises: at some spec of the stack the name is missing, or
    the spec links to itself, or the lookup of one of its links raises, or
    the spec found links back. *)
Lemma next_named_Raise l services e :
  next_named view l services = Raise e →
  (e = StopIteration ∧ ∀ t, t ∈ services → name_of view t ≠ Some l) ∨
  (e = KeyError "name" ∧ ∃ t, t ∈ services ∧ name_of view t = None).
Proof.
  induction services as [|x xs IH]; simpl.
  { intros [= <-]. left. split; [done|]. intros t Ht. by apply elem_of_nil in Ht. }
  unfold getitem_name, name_of in *.
  destruct (d_name (view x)) as [nm|] eqn:E; simpl.
  - case_bool_decide as Hl; [done|]. intros H.
    destruct (IH H) as [[-> Hm]|(-> & t & Ht & Hn)].
    + left. split; [done|]. intros t [->|Ht]%elem_of_cons; [congruence|auto].
    + right. split; [done|]. exists t. split; [by right|done].
  - intros [= <-]. right. split; [done|]. exists x. split; [left|done].
Qed.

Lemma visit_links_Raise services n links sorted e :
  visit_links view services n links sorted = Raise e →
  name_of view n = None ∨
  ∃ l, l ∈ links ∧
    (next_named view l services = Raise e ∨
     ∃ b nm, next_named view l services = Ok b ∧ name_of view n = Some nm ∧
             nm ∈ get_links (view b) ∧
             e = DependencyError (circular_msg nm l)).
Proof.
  revert sorted. induction links as [|l ls IH]; intros sorted H; simpl in H.
  { done. }
  destruct (visit_link view services n sorted l) as [mid|e'] eqn:E; simpl in H.
  - destruct (IH _ H) as [?|(l' & Hl' & Hc)]; [by left|right].
    exists l'. split; [by right|done].
  - injection H as ->. unfold visit_link in E.
    destruct (next_named view l services) as [b|e'] eqn:Hb; simpl in E.
    + unfold getitem_name in E. unfold name_of.
      destruct (d_name (view n)) as [nm|] eqn:En; simpl in E; [|by left].
      right. exists l. split; [left|]. right. exists b, nm.
      split; [done|]. split; [done|].
      case_bool_decide as Hin; [|by destruct (_ && _)].
      split; [done|].
      apply next_named_Ok in Hb as [_ Hbn]. unfold name_of in Hbn.
      rewrite Hbn in E. simpl in E. congruence.
    + injection E as ->. right. exists l. split; [left|]. by left.
Qed.

Lemma drain_Raise services stack sorted e :
  stack_of view services stack →
  drain view services stack sorted = Raise e →
  ∃ n, n ∈ stack ∧
    (name_of view n = None ∨
     (∃ nm, name_of view n = Some nm ∧ nm ∈ get_links (view n) ∧
            e = DependencyError (self_link_msg nm)) ∨
     ∃ l, l ∈ get_links (view n) ∧
       (next_named view l services = Raise e ∨
        ∃ b nm, next_named view l services = Ok b ∧
                name_of view n = Some nm ∧ nm ∈ get_links (view b) ∧
                e = DependencyError (circular_msg nm l))).
Proof.
  revert sorted. induction stack as [|n rest IH]; intros sorted Hst H.
  { done. }
  apply stack_of_cons in Hst as (_ & Hln & Hst). simpl in H.
  unfold getitem_name in H. 
  destruct (d_name (view n)) as [nm|] eqn:En; simpl in H.
  2:{ exists n. split; [left|]. by left. }
  case_bool_decide as Hself.
  { injection H as <-. exists n. split; [left|]. right. left. by exists nm. }
  rewrite (has_links_getitem _ Hln) in H. simpl in H.
  destruct (visit_links view services n (get_links (view n)) (sorted ++ [n]))
    as [mid|e'] eqn:Ev; simpl in H.
  - destruct (IH _ Hst H) as (m & Hm & Hc). exists m. split; [by right|done].
  - injection H as ->. exists n. split; [left|].
    apply visit_links_Raise in Ev as [Hnone|Hl].
    + unfold name_of in Hnone. congruence.
    + by right; right.
Qed.

(** X4.  A [DependencyError] is raised only for what its message says: a
    spec whose links hold its own name, or two specs each of which holds
    the other's name in its links; the message carries those names. *)
Theorem DependencyError_names_the_offenders (services : list T) (msg : string) :
  sort_service_dicts view services = Raise (DependencyError msg) →
  ∃ n nm, n ∈ services ∧ name_of view n = Some nm ∧
    ((nm ∈ get_links (view n) ∧ msg = self_link_msg nm) ∨
     ∃ b bn, b ∈ services ∧ name_of view b = Some bn ∧
             bn ∈ get_links (view n) ∧ nm ∈ get_links (view b) ∧
             msg = circular_msg nm bn).
Proof.
  intros H. unfold sort_service_dicts in H.
  rewrite flatten_dependent in H. simpl in H.
  destruct (non_dependent_of view _ services) as [nd|e] eqn:End; simpl in H.
  2:{ injection H as ->. by apply non_dependent_of_Raise in End as [? _]. }
  apply non_dependent_of_Ok_named in End.
  destruct (drain view services _ []) as [sorted|e] eqn:Ed; simpl in H; [done|].
  injection H as ->.
  apply drain_Raise in Ed as (n & Hn & Hc); [|apply stack_of_dependent].
  apply elem_of_reverse, elem_of_dependent_of in Hn as [_ Hn].
  destruct (End n Hn) as [nm Hnm]. exists n, nm. split; [done|]. split; [done|].
  destruct Hc as [Hnone|[(nm' & Hnm' & Hin & [= ->])|(l & Hl & Hc)]].
  - congruence.
  - left. split; [congruence|]. f_equal. congruence.
  - destruct Hc as [Hr|(b & nm' & Hb & Hnm' & Hin & [= ->])].
    + apply next_named_Raise in Hr as [[? _]|[? _]]; done.
    + right. apply next_named_Ok in Hb as [Hbin Hbn]. exists b, l.
      assert (nm' = nm) as -> by congruence. done.
Qed.

(** X5.  When every spec has a name and nothing links to itself or back, a
    link that names no spec makes the call raise [StopIteration]. *)
Theorem missing_link_target_raises_StopIteration (services : list T) :
  named view services →
  (∀ n, n ∈ services → ¬ rejected view services n) →
  (∃ s l, s ∈ services ∧ l ∈ get_links (view s) ∧
          ∀ t, t ∈ services → name_of view t ≠ Some l) →
  sort_service_dicts view services = Raise StopIteration.
Proof.
  intros Hn Hgood (s & l & Hs & Hl & Hm).
  destruct (sort_missing view services s l Hs Hl Hm) as [e He].
  rewrite He. f_equal. unfold sort_service_dicts in He.
  rewrite flatten_dependent in He. simpl in He.
  rewrite (non_dependent_of_named view) in He by done. simpl in He.
  destruct (drain view services _ []) as [sorted|e'] eqn:Ed; simpl in He; [done|].
  injection He as ->.
  apply drain_Raise in Ed as (n & Hin & Hc); [|apply stack_of_dependent].
  apply elem_of_reverse, elem_of_dependent_of in Hin as [_ Hin].
  destruct (Hn n Hin) as [nm Hnm].
  destruct Hc as [Hnone|[(nm' & Hnm' & Hself & _)|(l' & Hl' & Hc)]].
  - congruence.
  - exfalso. apply (Hgood n Hin). left. by exists nm'.
  - destruct Hc as [Hr|(b & nm' & Hb & Hnm' & Hback & _)].
    + apply next_named_Raise in Hr as [[-> _]|(_ & t & Ht & Hnone)]; [done|].
      destruct (Hn t Ht) as [? ?]. congruence.
    + exfalso. apply (Hgood n Hin). right. by exists l', b, nm'.
Qed.

(** X6.  When the specs have unique names and every link target is present,
    an order is returned exactly when no spec links to itself and no two
    specs link to each other.  Longer rings of links are not looked for. *)
Theorem sort_returns_iff_no_self_or_mutual_link (services : list T) :
  named view services → unique_names view services →
  links_present view services →
  (is_Ok (sort_service_dicts view services) ↔
   no_self_link view services ∧ ¬ mutual_link view services).
Proof.
  intros Hn Hu Hp. split.
  - intros [out Hout]. split.
    + intros s Hs Hself.
      destruct (sort_rejects view services Hn Hp) as [msg Hmsg]; [|congruence].
      exists s. split; [done|]. by left.
    + intros (a & b & Ha & Hb & (nb & Hnb & Hab) & (na & Hna & Hba)).
      destruct (sort_rejects view services Hn Hp) as [msg Hmsg]; [|congruence].
      exists a. split; [done|]. right. exists nb, b, na.
      split; [done|]. split; [by apply next_named_unique|done].
  - intros [Hself Hmut].
    destruct (sort_accepts view services Hn Hp) as (sorted & _ & ->);
      [|by eexists].
    intros n Hin [Hs|(l & b & nm & Hl & Hb & Hnm & Hback)].
    + by apply (Hself n).
    + apply Hmut. apply next_named_Ok in Hb as [Hbin Hbn].
      exists n, b. split; [done|]. split; [done|].
      split; [by exists l|by exists nm].
Qed.

End sort_more.

Lemma sort_without_links_is_identity_witness :
  sort_service_dicts id [web'; specA; db'] = Ok [web'; specA; db'].
Proof.
  apply sort_without_links_is_identity.
  - intros s Hs. elems Hs; by eexists.
  - intros s Hs. by elems Hs.
Defined.

Lemma sort_nameless_raises_KeyError_witness :
  sort_service_dicts id [specB; nameless; specA] = Raise (KeyError "name").
Proof.
  apply sort_nameless_raises_KeyError.
  exists nameless. split; [in_list|done].
Defined.

Lemma DependencyError_names_the_offenders_witness :
  ∃ n nm, n ∈ [specA; web; db] ∧ name_of id n = Some nm ∧
    ((nm ∈ get_links (id n) ∧
      "Circular import between db and web" = self_link_msg nm) ∨
     ∃ b bn, b ∈ [specA; web; db] ∧ name_of id b = Some bn ∧
             bn ∈ get_links (id n) ∧ nm ∈ get_links (id b) ∧
             "Circular import between db and web" = circular_msg nm bn).
Proof.
  apply (DependencyError_names_the_offenders id [specA; web; db]). reflexivity.
Defined.

Lemma missing_link_target_raises_StopIteration_witness :
  sort_service_dicts id [specA; orphan] = Raise StopIteration.
Proof.
  apply missing_link_target_raises_StopIteration.
  - intros s Hs. elems Hs; by eexists.
  - intros n Hn [(nm & Hnm & Hl)|(l & b & nm & Hl & Hb & _)];
      elems Hn; read_specs; simplify_eq; elems Hl; done.
  - exists orphan, "nowhere". split; [in_list|].
    split; [read_specs; left|]. intros t Ht. elems Ht; done.
Defined.

Lemma sort_returns_iff_no_self_or_mutual_link_witness :
  is_Ok (sort_service_dicts id [ring1; ring2; ring3]).
Proof.
  apply sort_returns_iff_no_self_or_mutual_link.
  - intros s Hs. elems Hs; by eexists.
  - by apply (bool_decide_unpack _).
  - intros s l Hs Hl. elems Hs; cbv [get_links d_links id ring1 ring2 ring3 spec] in Hl; elems Hl.
    + exists ring2. split; [in_list|done].
    + exists ring3. split; [in_list|done].
    + exists ring1. split; [in_list|done].
  - split.
    + intros s Hs (nm & Hnm & Hl).
      elems Hs; cbv [name_of get_links d_links d_name id ring1 ring2 ring3 spec] in *;
        simplify_eq; elems Hl.
    + intros (a & b & Ha & Hb & (nb & Hnb & Hab) & (na & Hna & Hba)).
      elems Ha; elems Hb;
        cbv [name_of get_links d_links d_name id ring1 ring2 ring3 spec] in *;
        simplify_eq; elems Hab; elems Hba.
Defined.

Lemma sort_service_dicts_shape_witness :
  ∃ leaves,
    [specA; specC; specB]
    = filter (fun s => is_non_dependent id
                (all_links id (dependent_of id [specA; specB; specC])) s)
        [specA; specB; specC]
      ++ leaves ++ reverse (dependent_of id [specA; specB; specC]) ∧
    ∀ x, x ∈ leaves →
         x ∈ [specA; specB; specC] ∧ has_links (id x) = false ∧
         ∃ l, l ∈ all_links id (dependent_of id [specA; specB; specC]) ∧
              name_of id x = Some l.
Proof.
  apply (sort_service_dicts_shape id [specA; specB; specC]). reflexivity.
Defined.

(** ** sort_service_dicts: when the order is a dependency order *)





Section dependency_order.
Context {T : Type} (view : T → dict).


End dependency_order.


(** ** Lookup in a project, continued *)

Lemma find_service_first services name s :
  find_service services name = Ok s ↔
  ∃ before after, services = before ++ s :: after ∧ s_name s = name ∧
                  ∀ u, u ∈ before → s_name u ≠ name.
Proof.
  split.
  - induction services as [|x xs IH]; simpl; [done|].
    case_bool_decide as Hx.
    + intros [= ->]. exists [], xs. split; [done|]. split; [done|].
      intros u Hu. by apply elem_of_nil in Hu.
    + intros H. destruct (IH H) as (before & after & -> & Hn & Hb).
      exists (x :: before), after. split; [done|]. split; [done|].
      intros u [->|Hu]%elem_of_cons; auto.
  - intros (before & after & -> & Hn & Hb).
    induction before as [|x xs IH]; simpl.
    + by rewrite bool_decide_eq_true_2.
    + rewrite bool_decide_eq_false_2 by (apply Hb; left).
      apply IH. intros u Hu. apply Hb. by right.
Qed.

Lemma find_service_Raise services name e :
  find_service services name = Raise e →
  e = NoSuchService name ∧ ∀ s, s ∈ services → s_name s ≠ name.
Proof.
  intros H.
  assert (∀ s, s ∈ services → s_name s ≠ name) as Hno.
  { intros s Hs Hn.
    destruct (find_service_exists services name) as [u Hu];
      [by exists s|congruence]. }
  rewrite find_service_missing in H by done. by injection H as <-.
Qed.

(** X8.  [get_service] returns the first service of that name, in the order
    of [services]; it raises exactly when no service has the name, and then
    [NoSuchService] with the name asked for. *)
Theorem get_service_first_or_NoSuchService (self : Project) (name : string) :
  (∀ s, get_service self name = Ok s ↔
        ∃ before after, p_services self = before ++ s :: after ∧
                        s_name s = name ∧
                        ∀ u, u ∈ before → s_name u ≠ name) ∧
  (∀ e, get_service self name = Raise e ↔
        e = NoSuchService name ∧ no_such self name).
Proof.
  split; [intros s; apply find_service_first|].
  intros e. unfold get_service, no_such. split.
  - apply find_service_Raise.
  - intros [-> Hno]. by apply find_service_missing.
Qed.

Lemma same_id_same_service services s u :
  NoDup (s_id <$> services) → s ∈ services → u ∈ services →
  same_object s u = true → s = u.
Proof.
  intros Hnd Hs Hu Hid. apply Nat.eqb_eq in Hid.
  induction services as [|x xs IH]; [by apply elem_of_nil in Hs|].
  rewrite fmap_cons in Hnd. apply list.NoDup_cons in Hnd as [Hx Hnd].
  apply elem_of_cons in Hs as [->|Hs]; apply elem_of_cons in Hu as [->|Hu].
  - done.
  - exfalso. apply Hx. rewrite Hid. by apply list_elem_of_fmap_2.
  - exfalso. apply Hx. rewrite <- Hid. by apply list_elem_of_fmap_2.
  - by apply IH.
Qed.

Lemma same_name_same_service services s u :
  NoDup (s_name <$> services) → s ∈ services → u ∈ services →
  s_name s = s_name u → s = u.
Proof.
  intros Hnd Hs Hu Hn.
  induction services as [|x xs IH]; [by apply elem_of_nil in Hs|].
  rewrite fmap_cons in Hnd. apply list.NoDup_cons in Hnd as [Hx Hnd].
  apply elem_of_cons in Hs as [->|Hs]; apply elem_of_cons in Hu as [->|Hu].
  - done.
  - exfalso. apply Hx. rewrite Hn. by apply list_elem_of_fmap_2.
  - exfalso. apply Hx. rewrite <- Hn. by apply list_elem_of_fmap_2.
  - by apply IH.
Qed.

Lemma filter_iff_in {A} (P1 P2 : A → Prop) `{∀ x, Decision (P1 x)}
    `{∀ x, Decision (P2 x)} (l : list A) :
  (∀ x, x ∈ l → P1 x ↔ P2 x) → filter P1 l = filter P2 l.
Proof.
  induction l as [|x xs IH]; intros Hiff; [done|].
  rewrite !filter_cons, IH by (intros y Hy; apply Hiff; by right).
  destruct (Hiff x) as [H12 H21]; [left|].
  destruct (decide (P1 x)), (decide (P2 x)); tauto.
Qed.

(** X9.  In a project whose services have distinct names and are distinct
    objects, [get_services] with names that all exist returns the services
    whose name is among those asked for, in project order. *)
Theorem get_services_by_name (self : Project) (names : list string) :
  NoDup (s_name <$> p_services self) → NoDup (s_id <$> p_services self) →
  names ≠ [] → all_exist self names →
  get_services self (Some names)
  = Ok (filter (fun s => s_name s ∈ names) (p_services self)).
Proof.
  intros Hnames Hids Hne He. rewrite get_services_filter by done.
  f_equal. apply filter_iff_in. intros s Hs.
  rewrite Is_true_true, requested_elem. split.
  - intros (n & u & Hn & Hu & Hid).
    apply find_service_Ok in Hu as [Hu Hun].
    by rewrite (same_id_same_service _ s u Hids Hs Hu Hid), Hun.
  - intros Hn. exists (s_name s).
    destruct (find_service_exists (p_services self) (s_name s)) as [u Hu];
      [by exists s|].
    exists u. split; [done|]. split; [done|].
    apply find_service_Ok in Hu as [Hu Hun].
    rewrite (same_name_same_service _ u s Hnames Hu Hs Hun).
    apply Nat.eqb_refl.
Qed.

Lemma get_services_by_name_witness :
  get_services five (Some ["E"; "B"])
  = Ok (filter (fun s => s_name s ∈ ["E"; "B"]) (p_services five)).
Proof.
  apply get_services_by_name.
  - by apply (bool_decide_unpack _).
  - by apply (bool_decide_unpack _).
  - done.
  - intros n Hn.
    elems Hn; [exists (handle 4 "E")|exists (handle 1 "B")];
      (split; [in_list|done]).
Defined.

(** ** Construction, continued *)

Lemma resolve_links_Ok project names acc out :
  resolve_links project names acc = Ok out →
  ∃ ls, out = acc ++ ls ∧
        Forall2 (fun nm l => find_service (p_services project) nm = Ok l)
                names ls.
Proof.
  revert acc. induction names as [|nm rest IH]; intros acc H; simpl in H.
  - injection H as <-. exists []. by rewrite app_nil_r.
  - apply rbind_Ok in H as (s0 & Hs0 & H).
    apply IH in H as (ls & -> & Hls). exists (s0 :: ls).
    split; [by rewrite <- app_assoc|]. by constructor.
Qed.

Lemma resolve_links_Raise project names acc e :
  resolve_links project names acc = Raise e →
  ∃ nm, nm ∈ names ∧ e = NoSuchService nm ∧ no_such project nm.
Proof.
  revert acc. induction names as [|nm rest IH]; intros acc H; simpl in H.
  { done. }
  destruct (get_service project nm) as [s0|e'] eqn:E; simpl in H.
  - apply IH in H as (nm' & ? & ? & ?). exists nm'. split; [by right|done].
  - injection H as ->.
    apply find_service_Raise in E as [-> Hno].
    exists nm. split; [left|done].
Qed.

Lemma resolve_links_exist project names acc :
  all_exist project names → is_Ok (resolve_links project names acc).
Proof.
  revert acc. induction names as [|nm rest IH]; intros acc He; simpl.
  { by eexists. }
  destruct (find_service_exists (p_services project) nm) as [s0 Hs0].
  { apply He. left. }
  unfold get_service. rewrite Hs0. simpl. apply IH.
  intros n Hn. apply He. by right.
Qed.

(** One turn of the loop that ends without an exception. *)
Lemma add_service_Ok name cl project r st project' st' :
  add_service name cl project r st = (Ok project', st') →
  ∃ svc,
    project' = {| p_name := p_name project;
                  p_services := p_services project ++ [svc];
                  p_client := p_client project |} ∧
    built name cl (st_dicts st r) (st_fresh st) (p_services project) svc ∧
    st_fresh st' = S (st_fresh st).
Proof.
  unfold add_service, sbind, read, lift, modify, sret, new_Service, built.
  destruct (d_links (st_dicts st r)) as [ls|] eqn:El; simpl.
  - destruct (resolve_links project (get_links (st_dicts st r)) [])
      as [links|e] eqn:Er; simpl; [|done].
    rewrite fn_lookup_insert. simpl.
    destruct (d_name (st_dicts st r)) as [nm|]; [|done].
    case_bool_decide; [done|]. intros [= <- <-]. eexists. split; [done|].
    simpl. apply resolve_links_Ok in Er as (ls' & -> & Hls). done.
  - destruct (d_name (st_dicts st r)) as [nm|]; [|done].
    case_bool_decide; [done|]. intros [= <- <-]. eexists. split; [done|].
    simpl. unfold get_links. rewrite El. repeat split; constructor.
Qed.

Lemma add_services_Ok name cl dicts project st project' st' :
  NoDup dicts →
  add_services name cl dicts project st = (Ok project', st') →
  p_name project' = p_name project ∧ p_client project' = p_client project ∧
  st_fresh st' = st_fresh st + length dicts ∧
  ∃ svcs, p_services project' = p_services project ++ svcs ∧
          built_chain name cl (st_dicts st) (st_fresh st)
            (p_services project) dicts svcs.
Proof.
  revert project st. induction dicts as [|r rest IH]; intros project st Hnd H.
  { simpl in H. injection H as <- <-. split; [done|]. split; [done|].
    split; [simpl; lia|]. exists []. rewrite app_nil_r.
    split; [done|constructor]. }
  apply list.NoDup_cons in Hnd as [Hr Hnd]. simpl in H. unfold sbind in H.
  destruct (add_service name cl project r st) as [[p1|e] st1] eqn:E1; [|done].
  pose proof (add_service_dicts _ _ _ _ _ _ _ E1) as (Hother & _ & _).
  apply add_service_Ok in E1 as (svc & -> & Hb & Hf).
  apply IH in H as (Hn & Hc & Hfr & svcs & Hsv & Hch); [|done].
  simpl in *. split; [done|]. split; [done|]. split; [lia|].
  exists (svc :: svcs). split; [by rewrite Hsv, <- app_assoc|].
  constructor; [done|]. rewrite <- Hf.
  clear -Hch Hother Hr. 
  induction Hch as [|id earlier r' refs svc' svcs' Hb' Hch' IHch]; [constructor|].
  constructor.
  - rewrite <- Hother; [done|]. intros ->. apply Hr. left.
  - apply IHch. intros Hin. apply Hr. by right.
Qed.

Lemma from_dicts_chain (name : string) (refs : list ref)
    (cl : client) (st : pystate) (project : Project) (st' : pystate) :
  unique_names (st_dicts st) refs →
  from_dicts name refs cl st = (Ok project, st') →
  ∃ sorted,
    sort_service_dicts (st_dicts st) refs = Ok sorted ∧
    p_name project = name ∧ p_client project = cl ∧
    st_fresh st' = st_fresh st + length sorted ∧
    built_chain name cl (st_dicts st) (st_fresh st) [] sorted
      (p_services project).
Proof.
  intros Hu H. unfold from_dicts, sbind in H.
  destruct (sort_service_dicts (st_dicts st) refs) as [sorted|e] eqn:Es;
    [|done].
  exists sorted. split; [done|].
  apply sort_Ok_permutation in Es as [_ Hnd]; [|done].
  apply add_services_Ok in H as (Hn & Hc & Hf & svcs & Hsv & Hch); [|done].
  simpl in *. by rewrite Hsv.
Qed.

(** X10.  With unique names, a project [from_dicts] returns holds one
    service for each dict the sort returned, in that order: the service
    has the dict's name and other fields, the client and the project name,
    and for links the handles that the names in the dict's links resolve to
    among the services built before it. *)
Theorem from_dicts_builds_each_spec (name : string) (refs : list ref)
    (cl : client) (st : pystate) (project : Project) (st' : pystate) :
  unique_names (st_dicts st) refs →
  from_dicts name refs cl st = (Ok project, st') →
  ∃ sorted,
    sort_service_dicts (st_dicts st) refs = Ok sorted ∧
    p_name project = name ∧ p_client project = cl ∧
    st_fresh st' = st_fresh st + length sorted ∧
    built_chain name cl (st_dicts st) (st_fresh st) [] sorted
      (p_services project).
Proof. apply from_dicts_chain. Qed.

Lemma from_dicts_builds_each_spec_witness :
  ∃ project st' sorted,
    from_dicts "figtest" [0; 1; 2] 0 (store [specC; specB; specA])
    = (Ok project, st') ∧
    sort_service_dicts (st_dicts (store [specC; specB; specA])) [0; 1; 2]
    = Ok sorted ∧
    p_name project = "figtest" ∧ p_client project = 0 ∧
    st_fresh st' = 0 + length sorted ∧
    built_chain "figtest" 0 (st_dicts (store [specC; specB; specA])) 0 []
      sorted (p_services project).
Proof.
  destruct (from_dicts "figtest" [0; 1; 2] 0 (store [specC; specB; specA]))
    as [[project|e] st'] eqn:E; [|by vm_compute in E].
  exists project, st'.
  destruct (from_dicts_builds_each_spec "figtest" [0; 1; 2] 0
              (store [specC; specB; specA]) project st') as (sorted & H);
    [by apply (bool_decide_unpack _)|done|].
  exists sorted. split; [done|]. exact H.
Defined.

Lemma built_chain_names name cl h id earlier refs svcs :
  built_chain name cl h id earlier refs svcs →
  name_of h <$> refs = Some <$> (s_name <$> svcs).
Proof.
  induction 1 as [|id earlier r refs svc svcs Hb _ IH]; [done|].
  rewrite !fmap_cons, IH. f_equal. by destruct Hb as [? _].
Qed.

Lemma built_chain_ids name cl h id earlier refs svcs :
  built_chain name cl h id earlier refs svcs →
  s_id <$> svcs = seq id (length refs).
Proof.
  induction 1 as [|id earlier r refs svc svcs Hb _ IH]; [done|].
  rewrite fmap_cons, IH. simpl. f_equal. by destruct Hb as (_ & ? & _).
Qed.

Lemma from_dicts_names (name : string) (refs : list ref)
    (cl : client) (st : pystate) (project : Project) (st' : pystate) :
  unique_names (st_dicts st) refs →
  from_dicts name refs cl st = (Ok project, st') →
  Some <$> (s_name <$> p_services project) ≡ₚ name_of (st_dicts st) <$> refs ∧
  length (p_services project) = length refs ∧
  NoDup (s_name <$> p_services project) ∧
  NoDup (s_id <$> p_services project).
Proof.
  intros Hu H.
  destruct (from_dicts_chain name refs cl st project st' Hu H)
    as (sorted & Hs & _ & _ & _ & Hch).
  apply sort_Ok_permutation in Hs as [Hperm _]; [|done].
  assert (Some <$> (s_name <$> p_services project)
          ≡ₚ name_of (st_dicts st) <$> refs) as Hnames.
  { by rewrite <- (built_chain_names _ _ _ _ _ _ _ Hch), Hperm. }
  split; [done|]. split; [|split].
  - apply Permutation_length in Hnames. rewrite !length_fmap in Hnames. done.
  - apply (NoDup_fmap_1 Some). by rewrite Hnames.
  - rewrite (built_chain_ids _ _ _ _ _ _ _ Hch). apply NoDup_seq.
Qed.

(** X11.  With unique names, the project [from_dicts] returns has as many
    services as there are dicts, their names are the names of the dicts,
    no two services share a name, and no two are the same object. *)
Theorem from_dicts_one_service_per_spec (name : string) (refs : list ref)
    (cl : client) (st : pystate) (project : Project) (st' : pystate) :
  unique_names (st_dicts st) refs →
  from_dicts name refs cl st = (Ok project, st') →
  Some <$> (s_name <$> p_services project) ≡ₚ name_of (st_dicts st) <$> refs ∧
  length (p_services project) = length refs ∧
  NoDup (s_name <$> p_services project) ∧
  NoDup (s_id <$> p_services project).
Proof. apply from_dicts_names. Qed.

Lemma from_dicts_one_service_per_spec_witness :
  ∃ project,
    fst (from_dicts "figtest" [0; 1; 2] 0 (store [specC; specB; specA]))
    = Ok project ∧
    Some <$> (s_name <$> p_services project)
    ≡ₚ name_of (st_dicts (store [specC; specB; specA])) <$> [0; 1; 2] ∧
    length (p_services project) = length [0; 1; 2] ∧
    NoDup (s_name <$> p_services project) ∧
    NoDup (s_id <$> p_services project).
Proof.
  destruct (from_dicts "figtest" [0; 1; 2] 0 (store [specC; specB; specA]))
    as [[project|e] st'] eqn:E; [|by vm_compute in E].
  exists project. split; [done|].
  apply (from_dicts_one_service_per_spec "figtest" [0; 1; 2] 0
           (store [specC; specB; specA]) project st');
    [by apply (bool_decide_unpack _)|done].
Defined.

Lemma links_back_snoc earlier svc :
  links_back earlier → (∀ l, l ∈ s_links svc → l ∈ earlier) →
  links_back (earlier ++ [svc]).
Proof.
  intros Hback Hsvc i x l Hi Hl.
  destruct (decide (i < length earlier)) as [Hlt|Hge].
  - rewrite lookup_app_l in Hi by done.
    rewrite take_app_le by lia. by apply (Hback i x).
  - rewrite lookup_app_r in Hi by lia.
    apply list_lookup_singleton_Some in Hi as [Hi <-].
    replace i with (length earlier) by lia.
    rewrite take_app_length. by apply Hsvc.
Qed.

Lemma add_services_links_back name cl dicts project st project' st' :
  links_back (p_services project) →
  add_services name cl dicts project st = (Ok project', st') →
  links_back (p_services project').
Proof.
  revert project st. induction dicts as [|r rest IH]; intros project st Hb H.
  { simpl in H. by injection H as <- <-. }
  simpl in H. unfold sbind in H.
  destruct (add_service name cl project r st) as [[p1|e] st1] eqn:E1; [|done].
  apply add_service_Ok in E1 as (svc & -> & Hbuilt & _).
  apply IH in H; [done|]. simpl. apply links_back_snoc; [done|].
  destruct Hbuilt as (_ & _ & _ & _ & _ & Hlinks).
  intros l Hl. apply list_elem_of_lookup_1 in Hl as [k Hk].
  destruct (Forall2_lookup_r _ _ _ _ _ Hlinks Hk) as (nm & _ & Hf).
  by apply find_service_Ok in Hf as [? _].
Qed.

(** X12.  In a project [from_dicts] returns, every handle a service holds
    in its links is a service of the project that stands before it. *)
Theorem from_dicts_links_point_back (name : string) (refs : list ref)
    (cl : client) (st : pystate) (project : Project) (st' : pystate) :
  from_dicts name refs cl st = (Ok project, st') →
  links_back (p_services project).
Proof.
  intros H. unfold from_dicts, sbind in H.
  destruct (sort_service_dicts (st_dicts st) refs) as [sorted|e]; [|done].
  apply add_services_links_back in H; [done|].
  intros i svc l Hi. done.
Qed.

Lemma from_dicts_links_point_back_witness :
  ∃ project,
    fst (from_dicts "figtest" [0; 1; 2] 0 (store [specC; specB; specA]))
    = Ok project ∧
    links_back (p_services project).
Proof.
  destruct (from_dicts "figtest" [0; 1; 2] 0 (store [specC; specB; specA]))
    as [[project|e] st'] eqn:E; [|by vm_compute in E].
  exists project. split; [done|].
  by apply (from_dicts_links_point_back "figtest" [0; 1; 2] 0
              (store [specC; specB; specA]) project st').
Defined.

Lemma sort_Ok_elements {T} (view : T → dict) (services out : list T) :
  sort_service_dicts view services = Ok out →
  named view services ∧ ∀ x, x ∈ out → x ∈ services.
Proof.
  intros Hs. split.
  - unfold sort_service_dicts in Hs. rewrite flatten_dependent in Hs.
    simpl in Hs. apply rbind_Ok in Hs as (nd & Hnd & _).
    by eapply non_dependent_of_Ok_named.
  - destruct (sort_shape view services out Hs)
      as (leaves & -> & Hleaves).
    intros x [Hx|[Hx|Hx]%elem_of_app]%elem_of_app.
    + by apply list_elem_of_filter in Hx as [_ ?].
    + by apply Hleaves in Hx as [? _].
    + by apply elem_of_reverse, elem_of_dependent_of in Hx as [_ ?].
Qed.

Lemma add_service_succeeds name cl project r st :
  is_Some (d_name (st_dicts st r)) → reserved_free (st_dicts st r) →
  all_exist project (get_links (st_dicts st r)) →
  ∃ svc st',
    add_service name cl project r st
    = (Ok {| p_name := p_name project;
             p_services := p_services project ++ [svc];
             p_client := p_client project |}, st') ∧
    d_name (st_dicts st r) = Some (s_name svc).
Proof.
  intros [nm Hnm] [Hc Hp] He.
  unfold add_service, sbind, read, lift, modify, sret, new_Service.
  destruct (d_links (st_dicts st r)) as [ls|] eqn:El; simpl.
  - destruct (resolve_links_exist project _ [] He) as [links ->]. simpl.
    rewrite fn_lookup_insert. simpl. rewrite Hnm.
    rewrite bool_decide_eq_false_2.
    + by eexists _, _.
    + rewrite Hc, Hp. by intros [[? ?]|[? ?]].
  - rewrite Hnm. rewrite bool_decide_eq_false_2.
    + by eexists _, _.
    + rewrite Hc, Hp. by intros [[? ?]|[? ?]].
Qed.

Lemma add_services_succeeds name cl (h : ref → dict) dicts project st :
  (∀ q, st_dicts st q = h q ∨ st_dicts st q = del_links (h q)) →
  (∀ r, r ∈ dicts → is_Some (d_name (h r)) ∧ reserved_free (h r)) →
  (∀ i r l, dicts !! i = Some r → l ∈ get_links (h r) →
     (∃ s, s ∈ p_services project ∧ s_name s = l) ∨
     ∃ j t, j < i ∧ dicts !! j = Some t ∧ d_name (h t) = Some l) →
  ∃ project' st', add_services name cl dicts project st = (Ok project', st').
Proof.
  revert project st.
  induction dicts as [|r rest IH]; intros project st Hh Hwf Hlinks.
  { by eexists _, _. }
  simpl. unfold sbind.
  assert (d_name (st_dicts st r) = d_name (h r) ∧
          d_rest (st_dicts st r) = d_rest (h r) ∧
          ∀ l, l ∈ get_links (st_dicts st r) → l ∈ get_links (h r))
    as (Hn & Hr & Hl).
  { destruct (Hh r) as [-> | ->]; [done|]. repeat split.
    intros l Hl. by apply elem_of_nil in Hl. }
  destruct (Hwf r) as [Hname [Hc Hp]]; [left|].
  destruct (add_service_succeeds name cl project r st) as (svc & st1 & E1 & Hsn).
  { by rewrite Hn. }
  { unfold reserved_free. by rewrite Hr. }
  { intros l Hl'. destruct (Hlinks 0 r l) as [?|(j & t & Hj & _)];
      [done|by apply Hl|done|lia]. }
  rewrite E1. apply IH.
  - pose proof (add_service_dicts _ _ _ _ _ _ _ E1) as (Hother & Hsame & _).
    intros q. destruct (decide (q = r)) as [->|Hne].
    + destruct Hsame as [-> | ->]; [done|].
      destruct (Hh r) as [-> | ->]; by right.
    + rewrite Hother by done. apply Hh.
  - intros q Hq. apply Hwf. by right.
  - intros i q l Hi Hql. simpl.
    destruct (Hlinks (S i) q l) as [(s0 & Hs0 & Hs0n)|(j & t & Hj & Ht & Htn)];
      [done|done| |].
    + left. exists s0. split; [|done]. apply elem_of_app. by left.
    + destruct j as [|j].
      * left. simpl in Ht. injection Ht as <-. exists svc.
        split; [apply elem_of_app; right; left|]. congruence.
      * right. exists j, t. split; [lia|done].
Qed.

(** X13.  [from_dicts] returns a project whenever the order the sort
    returns is a dependency order and no dict has a key [client] or
    [project]. *)
Theorem from_dicts_succeeds_on_dependency_order (name : string)
    (refs : list ref) (cl : client) (st : pystate) (sorted : list ref) :
  sort_service_dicts (st_dicts st) refs = Ok sorted →
  links_first (st_dicts st) sorted →
  (∀ r, r ∈ refs → reserved_free (st_dicts st r)) →
  ∃ project st', from_dicts name refs cl st = (Ok project, st').
Proof.
  intros Hs Hfirst Hres. unfold from_dicts, sbind. rewrite Hs.
  destruct (sort_Ok_elements _ _ _ Hs) as [Hn Hsub].
  apply (add_services_succeeds name cl (st_dicts st)).
  - by left.
  - intros r Hr. split; [apply Hn|apply Hres]; by apply Hsub.
  - intros i r l Hi Hl. right. by apply (Hfirst i r l).
Qed.

Lemma from_dicts_succeeds_on_dependency_order_witness :
  ∃ project st',
    from_dicts "figtest" [0; 1; 2] 0 (store [specC; specB; specA])
    = (Ok project, st').
Proof.
  apply (from_dicts_succeeds_on_dependency_order "figtest" [0; 1; 2] 0
           (store [specC; specB; specA]) [2; 1; 0]).
  - reflexivity.
  - intros i r l Hi Hl. destruct i as [|[|[|i]]]; simpl in Hi; simplify_eq;
      cbv in Hl; elems Hl.
    + exists 0, 2. split; [lia|done].
    + exists 1, 1. split; [lia|done].
  - intros r Hr. by elems Hr.
Defined.

Lemma add_services_Raise name cl dicts project st e st' :
  add_services name cl dicts project st = (Raise e, st') →
  (∃ nm, e = NoSuchService nm) ∨ (∃ msg, e = TypeError msg).
Proof.
  revert project st. induction dicts as [|r rest IH]; intros project st H.
  { done. }
  simpl in H. unfold sbind in H.
  destruct (add_service name cl project r st) as [[p1|e1] st1] eqn:E1.
  { by apply IH in H. }
  injection H as <- <-. clear IH.
  unfold add_service, sbind, read, lift, modify, sret, new_Service in E1.
  destruct (d_links (st_dicts st r)) as [ls|]; simpl in E1.
  - destruct (resolve_links project (get_links (st_dicts st r)) [])
      as [links|e2] eqn:Er; simpl in E1.
    + rewrite fn_lookup_insert in E1. simpl in E1.
      destruct (d_name (st_dicts st r)); [case_bool_decide|];
        simpl in E1; simplify_eq; right; by eexists.
    + injection E1 as <- _.
      apply resolve_links_Raise in Er as (nm & _ & -> & _). left. by eexists.
  - destruct (d_name (st_dicts st r)); [case_bool_decide|];
      simpl in E1; simplify_eq; right; by eexists.
Qed.

(** X14.  When [from_dicts] raises, either the sort raised that exception,
    and then no dict has been changed and no service made, or the sort
    returned and the exception is a [NoSuchService] from resolving a link
    or a [TypeError] from the constructor call.  A [DependencyError]
    therefore leaves every dict as it was. *)
Theorem from_dicts_raises (name : string) (refs : list ref) (cl : client)
    (st : pystate) (e : exn) (st' : pystate) :
  from_dicts name refs cl st = (Raise e, st') →
  (sort_service_dicts (st_dicts st) refs = Raise e ∧ st' = st) ∨
  (is_Ok (sort_service_dicts (st_dicts st) refs) ∧
   ((∃ nm, e = NoSuchService nm) ∨ (∃ msg, e = TypeError msg))).
Proof.
  unfold from_dicts, sbind.
  destruct (sort_service_dicts (st_dicts st) refs) as [sorted|e0].
  - intros H. right. split; [by eexists|]. by eapply add_services_Raise.
  - intros [= <- <-]. by left.
Qed.

Lemma from_dicts_raises_witness :
  (sort_service_dicts (st_dicts (store [specA; web; db])) [0; 1; 2]
   = Raise (DependencyError "Circular import between db and web") ∧
   snd (from_dicts "figtest" [0; 1; 2] 0 (store [specA; web; db]))
   = store [specA; web; db]) ∨
  (is_Ok (sort_service_dicts (st_dicts (store [specA; web; db])) [0; 1; 2]) ∧
   ((∃ nm, DependencyError "Circular import between db and web"
           = NoSuchService nm) ∨
    (∃ msg, DependencyError "Circular import between db and web"
            = TypeError msg))).
Proof.
  apply (from_dicts_raises "figtest" [0; 1; 2] 0 (store [specA; web; db])).
  reflexivity.
Defined.

Lemma name_entries_names (config : list (string * ref)) (st : pystate) :
  NoDup config.*2 →
  ∃ st1, name_entries config [] st = (Ok config.*2, st1) ∧
         name_of (st_dicts st1) <$> config.*2 = Some <$> config.*1.
Proof.
  intros Hr. destruct (name_entries_dicts config [] st) as (st1 & E1 & Hq).
  exists st1. split; [done|].
  rewrite <- !list_fmap_compose. apply list_fmap_ext.
  intros i [k r] Hi. simpl. unfold name_of.
  apply list_elem_of_lookup_2 in Hi.
  destruct (Hq r) as [[Hnin _]|(k' & Hin & ->)].
  - exfalso. apply Hnin. apply list_elem_of_fmap. by exists (k, r).
  - by rewrite (NoDup_snd_inj config k k' r).
Qed.

(** X15.  For a mapping whose entries are distinct dicts, a project
    [from_config] returns has one service for each entry, named by the
    entry's key; no two services share a name or are the same object. *)
Theorem from_config_one_service_per_entry (name : string)
    (config : list (string * ref)) (cl : client) (st : pystate)
    (project : Project) (st' : pystate) :
  NoDup config.*1 → NoDup config.*2 →
  from_config name config cl st = (Ok project, st') →
  s_name <$> p_services project ≡ₚ config.*1 ∧
  NoDup (s_id <$> p_services project).
Proof.
  intros Hk Hr H. unfold from_config, sbind in H.
  destruct (name_entries_names config st Hr) as (st1 & E1 & Hnames).
  rewrite E1 in H.
  assert (unique_names (st_dicts st1) config.*2) as Hu.
  { unfold unique_names. rewrite Hnames. by apply (NoDup_fmap_2 Some). }
  destruct (from_dicts_names name config.*2 cl st1 project st' Hu H)
    as (Hperm & _ & Hnd & Hids).
  split; [|done]. rewrite Hnames in Hperm.
  apply NoDup_Permutation; [done..|]. intros x.
  rewrite <- (list_elem_of_fmap_inj Some _ x), Hperm.
  apply (list_elem_of_fmap_inj Some).
Qed.

Lemma from_config_one_service_per_entry_witness :
  ∃ project,
    fst (from_config "figtest" [("web", 0); ("db", 1)] 0
           (store [entry_with_link; nameless]))
    = Ok project ∧
    s_name <$> p_services project ≡ₚ ["web"; "db"] ∧
    NoDup (s_id <$> p_services project).
Proof.
  destruct (from_config "figtest" [("web", 0); ("db", 1)] 0
              (store [entry_with_link; nameless]))
    as [[project|e] st'] eqn:E; [|by vm_compute in E].
  exists project. split; [done|].
  apply (from_config_one_service_per_entry "figtest" [("web", 0); ("db", 1)] 0
           (store [entry_with_link; nameless]) project st');
    [by apply (bool_decide_unpack _)..|done].
Defined.

(** ** Bulk lifecycle operations, continued *)

Section lifecycle_more.
Context {World Options Container : Type}.
Context (service_op : op → Service → Options → World → option exn * World).
Context (service_recreate :
  Service → World → result (list Container * list Container) * World).
Context (can_be_built : Service → bool).

Local Abbreviation lstate := (@lstate World Options).
Local Abbreviation succeeds := (succeeds service_op).
Local Abbreviation recreated := (recreated service_recreate).

Implicit Types (st : lstate) (s : Service) (w : World).

(** X16.  When one of the names names no service, each of the six bulk
    operations raises [NoSuchService] with the first such name, and has
    then called nothing and logged nothing. *)
Theorem unknown_name_stops_before_any_call (self : Project)
    (pre : list string) (name : string) (post : list string)
    (options : Options) (st : lstate) :
  all_exist self pre → no_such self name →
  (∀ run,
     run ∈ [start service_op; stop service_op; kill service_op;
            remove_stopped service_op; build service_op can_be_built] →
     run self (Some (pre ++ name :: post)) options st
     = (Raise (NoSuchService name), st)) ∧
  recreate_containers service_recreate self (Some (pre ++ name :: post)) st
  = (Raise (NoSuchService name), st).
Proof.
  intros He Hno.
  assert (get_services self (Some (pre ++ name :: post))
          = Raise (NoSuchService name)) as Hg.
  { unfold get_services. rewrite get_each_missing by done. by destruct pre. }
  split.
  - intros run Hrun.
    elems Hrun;
      unfold start, stop, kill, remove_stopped, build, sbind, lift;
      by rewrite Hg.
  - unfold recreate_containers, sbind, lift. by rewrite Hg.
Qed.

(** X17.  When none of the calls raises, [start], [stop], [kill] and
    [remove_stopped] return having called the operation once on each
    selected service, in the order of the selection, with the options they
    were given. *)
Theorem plain_operation_calls_each_service (self : Project)
    (names : option (list string)) (options : Options)
    (services : list Service) (st : lstate) (w' : World) :
  get_services self names = Ok services →
  ∀ o run,
    (o, run) ∈ [(Start, start service_op); (Stop, stop service_op);
                (Kill, kill service_op);
                (RemoveStopped, remove_stopped service_op)] →
    succeeds o options services (world st) w' →
    run self names options st
    = (Ok tt, {| world := w';
                 calls := calls st ++ calls_of o options services;
                 logged := logged st |}).
Proof.
  intros Hsel o run Hrun Hok.
  elems Hrun; unfold start, stop, kill, remove_stopped, sbind, lift;
    rewrite Hsel; by apply for_each_invoke_succeeds.
Qed.

Lemma recreate_each_recreated services rs w w' :
  recreated services w rs w' →
  ∀ old new st, world st = w →
  recreate_each service_recreate services old new st
  = (Ok (old ++ tagged services rs.*1, new ++ tagged services rs.*2),
     {| world := w'; calls := calls st ++ (CallRecreate <$> services);
        logged := logged st |}).
Proof.
  induction 1 as [w|s rest r rs w w1 w2 Hs _ IH];
    intros old new st Hw; simpl.
  - unfold sret. rewrite !app_nil_r. destruct st. simpl in *. by subst.
  - unfold sbind, invoke_recreate at 1. rewrite <- Hw in Hs. rewrite Hs.
    rewrite IH by done. simpl. by rewrite <- !app_assoc.
Qed.

(** X18.  When none of the calls raises, [recreate_containers] returns two
    lists: the old containers and the new containers the service layer
    answered with, each paired with its service, service after service in
    the order of the selection; their lengths are the numbers of old and
    of new containers. *)
Theorem recreate_containers_collects_pairs (self : Project)
    (names : option (list string)) (services : list Service)
    (rs : list (list Container * list Container)) (st : lstate) (w' : World) :
  get_services self names = Ok services →
  recreated services (world st) rs w' →
  recreate_containers service_recreate self names st
  = (Ok (tagged services rs.*1, tagged services rs.*2),
     {| world := w'; calls := calls st ++ (CallRecreate <$> services);
        logged := logged st |}) ∧
  length (tagged services rs.*1) = sum_list (length <$> rs.*1) ∧
  length (tagged services rs.*2) = sum_list (length <$> rs.*2).
Proof.
  intros Hsel Hrec. split.
  - unfold recreate_containers, sbind, lift. rewrite Hsel.
    by rewrite (recreate_each_recreated services rs _ w' Hrec [] [] st eq_refl).
  - clear Hsel. induction Hrec as [w|s rest r rs w w1 w2 _ _ [IH1 IH2]].
    + done.
    + simpl. rewrite !length_app, !length_fmap.
      split; f_equal; [exact IH1|exact IH2].
Qed.

(** X20.  The order in which the names are given does not matter to a bulk
    operation: it works on the same services in the same order. *)
Theorem bulk_operation_ignores_order_of_names (self : Project)
    (names names' : list string) (options : Options) (st : lstate) :
  names ≠ [] → all_exist self names → names' ≡ₚ names →
  (∀ run,
     run ∈ [start service_op; stop service_op; kill service_op;
            remove_stopped service_op; build service_op can_be_built] →
     run self (Some names') options st = run self (Some names) options st) ∧
  recreate_containers service_recreate self (Some names') st
  = recreate_containers service_recreate self (Some names) st.
Proof.
  intros Hne He Hp.
  assert (get_services self (Some names') = get_services self (Some names))
    as Hg.
  { rewrite (get_services_filter self names) by done.
    rewrite (get_services_filter self names').
    - f_equal. apply list_filter_iff. intros s.
      by rewrite (requested_Permutation self names names' s Hp).
    - intros ->. by apply Permutation_nil_l in Hp.
    - intros n Hn. apply He. by rewrite <- Hp. }
  split.
  - intros run Hrun.
    elems Hrun;
      unfold start, stop, kill, remove_stopped, build, sbind, lift;
      by rewrite Hg.
  - unfold recreate_containers, sbind, lift. by rewrite Hg.
Qed.

End lifecycle_more.

Lemma unknown_name_stops_before_any_call_witness :
  start flaky five (Some ["A"; "missing"; "C"]) () fresh_runtime
  = (Raise (NoSuchService "missing"), fresh_runtime) ∧
  recreate_containers flaky_recreate five (Some ["A"; "missing"; "C"])
    fresh_runtime
  = (Raise (NoSuchService "missing"), fresh_runtime).
Proof.
  destruct (unknown_name_stops_before_any_call flaky flaky_recreate has_build
              five ["A"] "missing" ["C"] () fresh_runtime) as [Hrun Hrec].
  - intros n Hn. elems Hn. exists (handle 0 "A"). split; [in_list|done].
  - intros s Hs. by elems Hs.
  - split; [apply Hrun; in_list|exact Hrec].
Defined.

Lemma plain_operation_calls_each_service_witness :
  stop flaky five (Some ["B"; "A"]) () fresh_runtime
  = (Ok (), {| world := 2;
               calls := [CallOp Stop (handle 0 "A") ();
                         CallOp Stop (handle 1 "B") ()];
               logged := [] |}).
Proof.
  apply (plain_operation_calls_each_service flaky five (Some ["B"; "A"]) ()
           [handle 0 "A"; handle 1 "B"] fresh_runtime 2 eq_refl Stop);
    [in_list|by repeat econstructor].
Defined.

Lemma recreate_containers_collects_pairs_witness :
  recreate_containers flaky_recreate five (Some ["B"; "A"]) fresh_runtime
  = (Ok ([(handle 0 "A", 0); (handle 1 "B", 1)],
         [(handle 0 "A", 1); (handle 1 "B", 2)]),
     {| world := 2;
        calls := [CallRecreate (handle 0 "A"); CallRecreate (handle 1 "B")];
        logged := [] |}).
Proof.
  destruct (recreate_containers_collects_pairs flaky_recreate five
              (Some ["B"; "A"]) [handle 0 "A"; handle 1 "B"]
              [([0], [1]); ([1], [2])] fresh_runtime 2) as [H _];
    [done|by repeat econstructor|exact H].
Defined.

Lemma bulk_operation_ignores_order_of_names_witness :
  kill flaky five (Some ["D"; "B"]) () fresh_runtime
  = kill flaky five (Some ["B"; "D"]) () fresh_runtime.
Proof.
  destruct (bulk_operation_ignores_order_of_names flaky flaky_recreate
              has_build five ["B"; "D"] ["D"; "B"] () fresh_runtime)
    as [Hrun _].
  - done.
  - intros n Hn.
    elems Hn; [exists (handle 1 "B")|exists (handle 3 "D")];
      (split; [in_list|done]).
  - apply Permutation_swap.
  - apply Hrun. in_list.
Defined.

(** ** containers *)

Section containers_facts.
Context {St Args Container : Type}.
Context (service_containers : Service → Args → M St (list Container)).

Lemma append_each_app (cs l : list Container) : append_each cs l = l ++ cs.
Proof.
  revert l. induction cs as [|c cs IH]; intros l; simpl.
  - by rewrite app_nil_r.
  - by rewrite IH, <- app_assoc.
Qed.

Lemma containers_each_answers args services css l st st' :
  answers service_containers args services st css st' →
  containers_each service_containers services args l st
  = (Ok (l ++ mjoin css), st').
Proof.
  intros H. revert l.
  induction H as [st|s rest cs css st st1 st2 Hs _ IH]; intros l; simpl.
  - unfold sret. by rewrite app_nil_r.
  - unfold sbind. rewrite Hs, IH, append_each_app. by rewrite <- app_assoc.
Qed.

Lemma containers_each_raises args pre s post css l st st1 e st2 :
  answers service_containers args pre st css st1 →
  service_containers s args st1 = (Raise e, st2) →
  containers_each service_containers (pre ++ s :: post) args l st
  = (Raise e, st2).
Proof.
  intros H Hs. revert l.
  induction H as [st|x rest cs css st st0 st1 Hx _ IH]; intros l; simpl.
  - unfold sbind. by rewrite Hs.
  - unfold sbind. rewrite Hx. by apply IH.
Qed.

(** X19.  [containers] returns the containers of the selected services,
    service after service in the order of the selection; an exception of
    the service layer ends it at once and is raised unchanged; a name that
    names no service makes it raise [NoSuchService] before it asks the
    service layer anything. *)
Theorem containers_concatenates (self : Project)
    (names : option (list string)) (args : Args) (st : St) :
  (∀ services css st',
     get_services self names = Ok services →
     answers service_containers args services st css st' →
     containers service_containers self names args st
     = (Ok (mjoin css), st')) ∧
  (∀ pre s post css st1 e st2,
     get_services self names = Ok (pre ++ s :: post) →
     answers service_containers args pre st css st1 →
     service_containers s args st1 = (Raise e, st2) →
     containers service_containers self names args st = (Raise e, st2)) ∧
  (∀ e, get_services self names = Raise e →
     containers service_containers self names args st = (Raise e, st)).
Proof.
  unfold containers, sbind, lift. split; [|split].
  - intros services css st' -> Hans.
    by rewrite (containers_each_answers args services css [] st st').
  - intros pre s post css st1 e st2 -> Hans Hs.
    by eapply containers_each_raises.
  - by intros e ->.
Qed.

End containers_facts.

Lemma containers_concatenates_witness :
  containers one_container five (Some ["B"; "A"]) () 0 = (Ok [0; 1], 2) ∧
  containers one_container five (Some ["A"; "C"; "D"]) () 0
  = (Raise (Foreign "boom"), 2) ∧
  containers one_container five (Some ["missing"]) () 0
  = (Raise (NoSuchService "missing"), 0).
Proof.
  split; [|split].
  - destruct (containers_concatenates one_container five (Some ["B"; "A"])
                () 0) as (Hok & _ & _).
    apply (Hok [handle 0 "A"; handle 1 "B"] [[0]; [1]] 2);
      [done|by repeat econstructor].
  - destruct (containers_concatenates one_container five
                (Some ["A"; "C"; "D"]) () 0) as (_ & Hraise & _).
    apply (Hraise [handle 0 "A"] (handle 2 "C") [handle 3 "D"] [[0]] 1);
      [done|by repeat econstructor|done].
  - destruct (containers_concatenates one_container five (Some ["missing"])
                () 0) as (_ & _ & Hno).
    by apply Hno.
Defined.
